(** * Captivate companion module: feedback cache, rebuild loop, resolver
      and reconnection watchdog

    A shallow embedding of [src/captivate.js].  JavaScript objects used as
    dictionaries ([localFeedbackCache], [pendingFeedbackChanges], [images],
    a feedback state) are finite maps; the [options] object, whose property
    order is observable through [JSON.stringify], is an ordered property
    list; the instance fields mutated by the methods are threaded through
    an explicit [CaptivateInstance] record. *)

From Stdlib Require Import ZArith List Ascii String DecimalString DecimalZ DecimalPos Lia.
From stdpp Require Import base option strings gmap list sorting.
Import ListNotations.
Local Open Scope Z_scope.

(** ** JavaScript values *)

Module JS.

(** The values that travel in [options] and in feedback states: JSON data.
    Numbers are the integer-valued ones (option ids, colours, counters),
    in the range where JavaScript prints every digit. *)
#[warnings="-register-all"]
Inductive JValue : Type :=
| JNull
| JBool (b : bool)
| JNum (n : Z)
| JStr (s : string)
| JArr (l : list JValue)
| JObj (l : list (string * JValue)).

(** An object whose own properties are enumerated in this order
    ([Object.keys], [JSON.stringify], spread). *)
Abbreviation Object := (list (string * JValue)).

Section JValue_nested_ind.
Variable P : JValue -> Prop.
Hypothesis Hnull : P JNull.
Hypothesis Hbool : forall b, P (JBool b).
Hypothesis Hnum : forall n, P (JNum n).
Hypothesis Hstr : forall s, P (JStr s).
Hypothesis Harr : forall l, Forall P l -> P (JArr l).
Hypothesis Hobj : forall l, Forall (fun kv => P (snd kv)) l -> P (JObj l).

Fixpoint JValue_nested_ind (v : JValue) : P v :=
  match v with
  | JNull => Hnull
  | JBool b => Hbool b
  | JNum n => Hnum n
  | JStr s => Hstr s
  | JArr l =>
      Harr l ((fix go (l : list JValue) : Forall P l :=
                 match l with
                 | [] => @List.Forall_nil _ P
                 | x :: xs => @List.Forall_cons _ P x xs (JValue_nested_ind x) (go xs)
                 end) l)
  | JObj l =>
      Hobj l ((fix go (l : Object) : Forall (fun kv => P (snd kv)) l :=
                 match l with
                 | [] => @List.Forall_nil _ _
                 | kv :: xs =>
                     @List.Forall_cons _ (fun kv => P (snd kv)) kv xs
                       (JValue_nested_ind (snd kv)) (go xs)
                 end) l)
  end.
End JValue_nested_ind.

(** A property slot of a feedback state: it may hold [undefined]
    ([state.png64 = this.images[name]] with an unknown name). *)
Inductive Field : Type :=
| FUndefined
| FVal (v : JValue).

(** Decimal text of an integer-valued number ([Number::toString]). *)
Definition num_text (n : Z) : string := NilZero.string_of_int (Z.to_int n).

(** [ToBoolean]. *)
Definition truthy (v : JValue) : bool :=
  match v with
  | JNull => false
  | JBool b => b
  | JNum n => negb (n =? 0)
  | JStr s => negb (String.eqb s EmptyString)
  | JArr _ | JObj _ => true
  end.

Definition truthy_field (f : Field) : bool :=
  match f with
  | FUndefined => false
  | FVal v => truthy v
  end.

Definition truthy_string (s : string) : bool := negb (String.eqb s EmptyString).

Fixpoint join_with (sep : string) (parts : list string) : string :=
  match parts with
  | [] => EmptyString
  | [p] => p
  | p :: rest => p +:+ sep +:+ join_with sep rest
  end.

(** [ToString], as a template literal or a computed property key applies
    it.  Inside [Array.prototype.join] a [null] element prints as nothing. *)
Fixpoint toString (v : JValue) : string :=
  match v with
  | JNull => "null"
  | JBool true => "true"
  | JBool false => "false"
  | JNum n => num_text n
  | JStr s => s
  | JArr l =>
      join_with ","
        (map (fun x => match x with JNull => EmptyString | _ => toString x end) l)
  | JObj _ => "[object Object]"
  end.

Definition toString_field (f : Field) : string :=
  match f with
  | FUndefined => "undefined"
  | FVal v => toString v
  end.

(** [x === "lit"] for a string literal. *)
Definition strict_eq_string (f : Field) (lit : string) : bool :=
  match f with
  | FVal (JStr s) => String.eqb s lit
  | _ => false
  end.

(** Own-property lookup in a parsed object (the first binding of a name). *)
Fixpoint own_property (name : string) (o : Object) : option JValue :=
  match o with
  | [] => None
  | (k, v) :: rest => if String.eqb k name then Some v else own_property name rest
  end.

End JS.
Export JS.

(** ** [JSON.stringify] on JSON data *)

Module Json.

Definition chars (s : string) : list ascii := list_ascii_of_string s.

Definition dquote : ascii := "034"%char.

Definition hexdigit (n : N) : ascii :=
  nth (N.to_nat n) (chars "0123456789abcdef") "0"%char.

(** [QuoteJSONString], one code unit at a time: the short escapes, the
    [\u00XX] form for the other control characters, the character itself
    otherwise. *)
Definition escape_char (c : ascii) : list ascii :=
  let n := N_of_ascii c in
  if (n =? 8)%N then chars "\b"
  else if (n =? 9)%N then chars "\t"
  else if (n =? 10)%N then chars "\n"
  else if (n =? 12)%N then chars "\f"
  else if (n =? 13)%N then chars "\r"
  else if (n =? 34)%N then ["\"%char; dquote]
  else if (n =? 92)%N then chars "\\"
  else if (n <? 32)%N then chars "\u00" ++ [hexdigit (n / 16); hexdigit (n mod 16)]
  else [c].

Definition quote (s : string) : list ascii :=
  dquote :: flat_map escape_char (chars s) ++ [dquote].

(** Comma-separated items. *)
Fixpoint commas (items : list (list ascii)) : list ascii :=
  match items with
  | [] => []
  | [t] => t
  | t :: rest => t ++ ","%char :: commas rest
  end.

Fixpoint text (v : JValue) : list ascii :=
  match v with
  | JNull => chars "null"
  | JBool true => chars "true"
  | JBool false => chars "false"
  | JNum n => chars (num_text n)
  | JStr s => quote s
  | JArr l => "["%char :: commas (map text l) ++ ["]"%char]
  | JObj l =>
      "{"%char
        :: commas (map (fun kv => quote (fst kv) ++ ":"%char :: text (snd kv)) l)
        ++ ["}"%char]
  end.

Definition member (kv : string * JValue) : list ascii :=
  quote (fst kv) ++ ":"%char :: text (snd kv).

(** [JSON.stringify(value)]. *)
Definition stringify (v : JValue) : string := string_of_list_ascii (text v).

Definition hexval (c : ascii) : option N :=
  let n := N_of_ascii c in
  if ((48 <=? n) && (n <=? 57))%N then Some (n - 48)%N
  else if ((97 <=? n) && (n <=? 102))%N then Some (n - 87)%N
  else None.

Definition unescape (t : list ascii) : option (ascii * list ascii) :=
  match t with
  | [] => None
  | c :: rest =>
      if Ascii.eqb c "\"%char then
        match rest with
        | [] => None
        | x :: rest' =>
            if Ascii.eqb x "b"%char then Some (ascii_of_N 8, rest')
            else if Ascii.eqb x "t"%char then Some (ascii_of_N 9, rest')
            else if Ascii.eqb x "n"%char then Some (ascii_of_N 10, rest')
            else if Ascii.eqb x "f"%char then Some (ascii_of_N 12, rest')
            else if Ascii.eqb x "r"%char then Some (ascii_of_N 13, rest')
            else if Ascii.eqb x dquote then Some (dquote, rest')
            else if Ascii.eqb x "\"%char then Some ("\"%char, rest')
            else
              match rest' with
              | _ :: _ :: h :: l :: rest'' =>
                  match hexval h, hexval l with
                  | Some a, Some b => Some (ascii_of_N (16 * a + b), rest'')
                  | _, _ => None
                  end
              | _ => None
              end
        end
      else if Ascii.eqb c dquote then None
      else Some (c, rest)
  end.

(** What may follow a value inside a JSON text. *)
Definition closes (r : list ascii) : Prop :=
  match r with
  | [] => True
  | c :: _ => c = ","%char \/ c = "]"%char \/ c = "}"%char
  end.

Definition is_digit (c : ascii) : bool :=
  let n := N_of_ascii c in ((48 <=? n) && (n <=? 57))%N.

Definition no_digit_ahead (r : list ascii) : Prop :=
  match r with
  | [] => True
  | c :: _ => is_digit c = false
  end.

(** The first character of a value's text tells its kind, and is never a
    separator. *)
Definition kind_char (v : JValue) (c : ascii) : Prop :=
  match v with
  | JNull => c = "n"%char
  | JBool true => c = "t"%char
  | JBool false => c = "f"%char
  | JNum _ => is_digit c = true \/ c = "-"%char
  | JStr _ => c = dquote
  | JArr _ => c = "["%char
  | JObj _ => c = "{"%char
  end.

End Json.

(** ** MD5 ([crypto.createHash('md5')], RFC 1321)

    32-bit words are [Z] with the wrap-around written out; the message is
    the byte string of the text, the digest is printed in lower-case hex. *)

Module MD5.

Definition add32 (a b : Z) : Z := (a + b) mod 2 ^ 32.
Definition not32 (x : Z) : Z := Z.lxor x 0xffffffff.
Definition rotl32 (x c : Z) : Z :=
  Z.lor (Z.shiftl x c mod 2 ^ 32) (Z.shiftr x (32 - c)).

Definition K : list Z :=
  [ 0xd76aa478; 0xe8c7b756; 0x242070db; 0xc1bdceee;
    0xf57c0faf; 0x4787c62a; 0xa8304613; 0xfd469501;
    0x698098d8; 0x8b44f7af; 0xffff5bb1; 0x895cd7be;
    0x6b901122; 0xfd987193; 0xa679438e; 0x49b40821;
    0xf61e2562; 0xc040b340; 0x265e5a51; 0xe9b6c7aa;
    0xd62f105d; 0x02441453; 0xd8a1e681; 0xe7d3fbc8;
    0x21e1cde6; 0xc33707d6; 0xf4d50d87; 0x455a14ed;
    0xa9e3e905; 0xfcefa3f8; 0x676f02d9; 0x8d2a4c8a;
    0xfffa3942; 0x8771f681; 0x6d9d6122; 0xfde5380c;
    0xa4beea44; 0x4bdecfa9; 0xf6bb4b60; 0xbebfbc70;
    0x289b7ec6; 0xeaa127fa; 0xd4ef3085; 0x04881d05;
    0xd9d4d039; 0xe6db99e5; 0x1fa27cf8; 0xc4ac5665;
    0xf4292244; 0x432aff97; 0xab9423a7; 0xfc93a039;
    0x655b59c3; 0x8f0ccc92; 0xffeff47d; 0x85845dd1;
    0x6fa87e4f; 0xfe2ce6e0; 0xa3014314; 0x4e0811a1;
    0xf7537e82; 0xbd3af235; 0x2ad7d2bb; 0xeb86d391 ].

Definition R : list Z :=
  [ 7; 12; 17; 22; 7; 12; 17; 22; 7; 12; 17; 22; 7; 12; 17; 22;
    5; 9; 14; 20; 5; 9; 14; 20; 5; 9; 14; 20; 5; 9; 14; 20;
    4; 11; 16; 23; 4; 11; 16; 23; 4; 11; 16; 23; 4; 11; 16; 23;
    6; 10; 15; 21; 6; 10; 15; 21; 6; 10; 15; 21; 6; 10; 15; 21 ].

Record regs := Regs { rA : Z; rB : Z; rC : Z; rD : Z }.

Definition init : regs := Regs 0x67452301 0xefcdab89 0x98badcfe 0x10325476.

Definition step (M : list Z) (r : regs) (i : nat) : regs :=
  let '(Regs a b c d) := r in
  let j := Z.of_nat i in
  let '(f, g) :=
    if j <? 16 then (Z.lor (Z.land b c) (Z.land (not32 b) d), j)
    else if j <? 32 then (Z.lor (Z.land d b) (Z.land (not32 d) c), (5 * j + 1) mod 16)
    else if j <? 48 then (Z.lxor b (Z.lxor c d), (3 * j + 5) mod 16)
    else (Z.lxor c (Z.lor b (not32 d)), (7 * j) mod 16) in
  let f' := add32 (add32 (add32 f a) (nth i K 0)) (nth (Z.to_nat g) M 0) in
  Regs d (add32 b (rotl32 f' (nth i R 0))) b c.

Definition block (r : regs) (M : list Z) : regs :=
  let '(Regs a b c d) := fold_left (step M) (seq 0 64) r in
  Regs (add32 (rA r) a) (add32 (rB r) b) (add32 (rC r) c) (add32 (rD r) d).

Definition le_bytes (n : nat) (x : Z) : list Z :=
  map (fun k => Z.land (Z.shiftr x (8 * Z.of_nat k)) 0xff) (seq 0 n).

Definition pad (msg : list Z) : list Z :=
  let len := Z.of_nat (length msg) in
  msg ++ [0x80] ++ repeat 0 (Z.to_nat ((55 - len) mod 64)) ++ le_bytes 8 (8 * len).

Fixpoint words (fuel : nat) (bs : list Z) : list Z :=
  match fuel, bs with
  | S fuel', b0 :: b1 :: b2 :: b3 :: rest =>
      Z.lor b0 (Z.lor (Z.shiftl b1 8) (Z.lor (Z.shiftl b2 16) (Z.shiftl b3 24)))
      :: words fuel' rest
  | _, _ => []
  end.

Fixpoint blocks (fuel : nat) (ws : list Z) (r : regs) : regs :=
  match fuel, ws with
  | S fuel', _ :: _ => blocks fuel' (drop 16 ws) (block r (take 16 ws))
  | _, _ => r
  end.

Definition digest (msg : list Z) : list Z :=
  let ws := words (length (pad msg)) (pad msg) in
  let '(Regs a b c d) := blocks (length ws) ws init in
  le_bytes 4 a ++ le_bytes 4 b ++ le_bytes 4 c ++ le_bytes 4 d.

Definition hexchar (n : Z) : ascii :=
  nth (Z.to_nat n) (list_ascii_of_string "0123456789abcdef") "0"%char.

Definition hex (bs : list Z) : string :=
  string_of_list_ascii
    (flat_map (fun b => [hexchar (Z.shiftr b 4); hexchar (Z.land b 0xf)]) bs).

Definition bytes_of_string (s : string) : list Z :=
  map (fun c => Z.of_N (N_of_ascii c)) (list_ascii_of_string s).

(** [createHash('md5').update(s).digest('hex')]. *)
Definition md5hex (s : string) : string := hex (digest (bytes_of_string s)).

End MD5.

(** ** Cache keys *)

Module Key.

(** [makeCacheKeyUsingOptions(key, options)]: the key itself when the
    options object has no property, else the key, a plus sign and the MD5
    of the JSON text of (a shallow copy of) the options. *)
Definition makeCacheKeyUsingOptions (key : string) (options : Object) : string :=
  if (0 <? length options)%nat then
    let vals := options in
    let optionsHash := MD5.md5hex (Json.stringify (JObj vals)) in
    key +:+ "+" +:+ optionsHash
  else key.

(** [str.split('~', 2)]: the pieces between tildes, at most two of them. *)
Fixpoint split_tilde (s : string) : list string :=
  match s with
  | EmptyString => [EmptyString]
  | String c rest =>
      if Ascii.eqb c "~"%char then EmptyString :: split_tilde rest
      else match split_tilde rest with
           | [] => [String c EmptyString]
           | p :: ps => String c p :: ps
           end
  end.

Definition split2 (s : string) : string * option string :=
  match take 2 (split_tilde s) with
  | [a] => (a, None)
  | a :: f :: _ => (a, Some f)
  | [] => (EmptyString, None)
  end.

(** [[actorId, feedbackId].join('~')]. *)
Definition join_tilde (actorId feedbackId : string) : string :=
  actorId +:+ "~" +:+ feedbackId.

End Key.
Export Key.

(** ** Feedback states and the resolver *)

(** A feedback state: the own properties of the object Captivate sent. *)
Abbreviation FbState := (gmap string Field).

Definition hasOwnProperty (name : string) (state : FbState) : bool :=
  match state !! name with
  | Some _ => true
  | None => false
  end.

(** [state.name]: [undefined] when the property is missing. *)
Definition prop (name : string) (state : FbState) : Field :=
  default FUndefined (state !! name).

(** An [async] method either returns or throws. *)
Inductive Outcome (A : Type) : Type :=
| Returns (a : A)
| Throws.
Arguments Returns {A} a.
Arguments Throws {A}.

#[global] Instance Outcome_bind : MBind Outcome :=
  fun A B (k : A -> Outcome B) (m : Outcome A) =>
    match m with
    | Returns a => k a
    | Throws => Throws
    end.

(** What the compositing step (lines 553-590: [Buffer.from] on the base
    and on the overlay, then the bitmap library) makes of a base image and
    an overlay: the composited picture, a decoder failure (logged, the
    state is left as it is), or a failure that ends the method, be it the
    encoder's (the promise is rejected) or that of [Buffer.from] on a base
    it does not accept, such as a number (it throws). *)
Inductive Composite : Type :=
| Composited (png64 : string)
| LoadFailed
| EncodeFailed.

Module Resolver.
Section Resolver.
(** The reply to [getValueForKey("newblue.automation.layerstate")]
    ([None]: no object came back), the image set, the instance's
    [layerImageData] field and the compositing capability. *)
Variable playStates : option (gmap string JValue).
Variable images : gmap string string.
Variable layerImageData : Field.
Variable composite : Field -> string -> Composite.

(** [s.playState] after the lookup [playStates[key]] and its fallback to
    ["unknown"]: only an object that owns a [playState] property counts. *)
Definition playStateOf (ps : gmap string JValue) (key : Field) : Field :=
  match ps !! toString_field key with
  | Some (JObj props) =>
      match own_property "playState" props with
      | Some v => FVal v
      | None => FVal (JStr "unknown")
      end
  | _ => FVal (JStr "unknown")
  end.

(** Lines 488-512. *)
Definition overlay_variants (ps : gmap string JValue) (state : FbState) : FbState :=
  let s := playStateOf ps (prop "overlayQueryKey" state) in
  let state :=
    if hasOwnProperty "overlayImageName_running" state then
      let state :=
        if strict_eq_string s "running"
        then <["overlayImageName" := prop "overlayImageName_running" state]> state
        else state in
      delete "overlayImageName_running" state
    else state in
  let state :=
    if hasOwnProperty "overlayImageName_paused" state then
      let state :=
        if strict_eq_string s "paused"
        then <["overlayImageName" := prop "overlayImageName_paused" state]> state
        else state in
      delete "overlayImageName_paused" state
    else state in
  delete "overlayQueryKey" state.

(** Lines 514-539.  The running branch assigns [png_running] to itself. *)
Definition png_variants (ps : gmap string JValue) (state : FbState) : FbState :=
  let s := playStateOf ps (prop "pngQueryKey" state) in
  let state :=
    if hasOwnProperty "png_running" state then
      let state :=
        if strict_eq_string s "running"
        then <["png_running" := prop "png_running" state]> state
        else state in
      delete "png_running" state
    else state in
  let state :=
    if hasOwnProperty "png_paused" state then
      let state :=
        if strict_eq_string s "paused"
        then <["png" := prop "png_paused" state]> state
        else state in
      delete "png_paused" state
    else state in
  delete "pngQueryKey" state.

Definition _handleFeedbackOverlayPlayStates (state : FbState) : Outcome FbState :=
  state ← (if hasOwnProperty "overlayQueryKey" state then
             match playStates with
             | Some ps => Returns (overlay_variants ps state)
             | None => Throws
             end
           else Returns state);
  if hasOwnProperty "pngQueryKey" state then
    match playStates with
    | Some ps => Returns (png_variants ps state)
    | None => Throws
    end
  else Returns state.

(** [this.images[name]] as a property value. *)
Definition image_field (name : string) : Field :=
  match images !! name with
  | Some data => FVal (JStr data)
  | None => FUndefined
  end.

Definition _handleFeedbackOverlayImage (state : FbState) : Outcome FbState :=
  if hasOwnProperty "overlayImageName" state then
    let layerImage := images !! toString_field (prop "overlayImageName" state) in
    let state := delete "overlayImageName" state in
    match layerImage with
    | None => Returns state
    | Some data =>
        if negb (truthy_string data) then Returns state
        else if hasOwnProperty "png64" state then
          match composite (prop "png64" state) data with
          | Composited b64 => Returns (<["png64" := FVal (JStr b64)]> state)
          | LoadFailed => Returns state
          | EncodeFailed => Throws
          end
        else Returns (<["png64" := layerImageData]> state)
    end
  else if hasOwnProperty "imageName" state then
    let state := <["png64" := image_field (toString_field (prop "imageName" state))]> state in
    Returns (delete "imageName" state)
  else Returns state.

Definition _handleFeedbackState (state : FbState) : Outcome FbState :=
  state ← (if truthy_field (prop "overlayQueryKey" state)
              || truthy_field (prop "pngQueryKey" state)
           then _handleFeedbackOverlayPlayStates state
           else Returns state);
  if truthy_field (prop "overlayImageName" state) || truthy_field (prop "imageName" state)
  then _handleFeedbackOverlayImage state
  else Returns state.
End Resolver.
End Resolver.
Export Resolver.

(** ** The instance *)

Inductive InstanceStatus : Type :=
| Connecting
| Ok
| BadConfig
| Disconnected.

(** The configuration record; [port] is the number of the form until the
    error handler overwrites it with the empty string. *)
Record Config : Type := mkConfig {
  bonjour_host : option string;
  host : string;
  port : JValue;
  needsNewConfig : bool
}.

Inductive TimerKind : Type := Timeout | Interval.
Inductive TimerTask : Type := RetryConnection | RecheckCache.

(** A live timer: [setTimeout] or [setInterval], its delay in milliseconds
    and what it runs. *)
Record Timer : Type := mkTimer {
  timer_kind : TimerKind;
  timer_delay : Z;
  timer_task : TimerTask
}.

(** An entry of the miss worklist, [{id, options}]. *)
Record CacheMiss : Type := mkMiss {
  miss_id : string;
  miss_options : Object
}.

(** One refill promise of the rebuild loop: the arguments of its
    [queryFeedbackDetails] call. *)
Record Refill : Type := mkRefill {
  refill_actorId : string;
  refill_feedbackId : string;
  refill_options : Object
}.

(** Calls that leave the module. *)
Inductive Effect : Type :=
| CheckFeedbacks
| UpdateStatus (s : InstanceStatus)
| OpenSocket (url : string)
| QueryFeedbackState (r : Refill).

(** The fields of [CaptivateInstance] the modelled methods read or write.
    [allSettledWaits] holds, per rebuild pass that launched refills, the
    promises its [Promise.allSettled] waits for; [effects] records the
    outgoing calls in order. *)
Record CaptivateInstance : Type := mkInstance {
  localFeedbackCache : gmap string FbState;
  pendingFeedbackChanges : gmap string string;
  cacheMisses : list CacheMiss;
  images : gmap string string;
  cacheBuilder : option Timer;
  connectionWatchdog : option Timer;
  config : Config;
  allSettledWaits : list (list Refill);
  effects : list Effect
}.

Definition set_localFeedbackCache (c : gmap string FbState) (st : CaptivateInstance) :=
  mkInstance c (pendingFeedbackChanges st) (cacheMisses st) (images st) (cacheBuilder st)
    (connectionWatchdog st) (config st) (allSettledWaits st) (effects st).

Definition set_pendingFeedbackChanges (p : gmap string string) (st : CaptivateInstance) :=
  mkInstance (localFeedbackCache st) p (cacheMisses st) (images st) (cacheBuilder st)
    (connectionWatchdog st) (config st) (allSettledWaits st) (effects st).

Definition set_cacheMisses (m : list CacheMiss) (st : CaptivateInstance) :=
  mkInstance (localFeedbackCache st) (pendingFeedbackChanges st) m (images st)
    (cacheBuilder st) (connectionWatchdog st) (config st) (allSettledWaits st) (effects st).

Definition set_cacheBuilder (t : option Timer) (st : CaptivateInstance) :=
  mkInstance (localFeedbackCache st) (pendingFeedbackChanges st) (cacheMisses st)
    (images st) t (connectionWatchdog st) (config st) (allSettledWaits st) (effects st).

Definition set_connectionWatchdog (t : option Timer) (st : CaptivateInstance) :=
  mkInstance (localFeedbackCache st) (pendingFeedbackChanges st) (cacheMisses st)
    (images st) (cacheBuilder st) t (config st) (allSettledWaits st) (effects st).

Definition set_config (c : Config) (st : CaptivateInstance) :=
  mkInstance (localFeedbackCache st) (pendingFeedbackChanges st) (cacheMisses st)
    (images st) (cacheBuilder st) (connectionWatchdog st) c (allSettledWaits st) (effects st).

Definition set_allSettledWaits (w : list (list Refill)) (st : CaptivateInstance) :=
  mkInstance (localFeedbackCache st) (pendingFeedbackChanges st) (cacheMisses st)
    (images st) (cacheBuilder st) (connectionWatchdog st) (config st) w (effects st).

Definition emit (es : list Effect) (st : CaptivateInstance) :=
  mkInstance (localFeedbackCache st) (pendingFeedbackChanges st) (cacheMisses st)
    (images st) (cacheBuilder st) (connectionWatchdog st) (config st)
    (allSettledWaits st) (effects st ++ es).

(** The instance the constructor leaves behind, for a given configuration. *)
Definition new_instance (c : Config) : CaptivateInstance :=
  mkInstance ∅ ∅ [] ∅ None None c [] [].

Definition checkFeedbacks (st : CaptivateInstance) : CaptivateInstance :=
  emit [CheckFeedbacks] st.

Definition updateStatus (s : InstanceStatus) (st : CaptivateInstance) : CaptivateInstance :=
  emit [UpdateStatus s] st.

(** *** The feedback cache (lines 677-703) *)

(** [for (const key in cache) if (key.startsWith(prefix)) delete cache[key]]:
    the keys present when the loop starts are visited once each. *)
Definition cacheRemoveKeysWithPrefix (pfx : string) (st : CaptivateInstance)
  : CaptivateInstance :=
  set_localFeedbackCache
    (map_fold (fun key _ cache => if String.prefix pfx key then delete key cache else cache)
       (localFeedbackCache st) (localFeedbackCache st))
    st.

Definition cacheStore (actorId feedbackId : string) (options : Object) (state : FbState)
    (st : CaptivateInstance) : CaptivateInstance :=
  let afid := join_tilde actorId feedbackId in
  let cachekey := makeCacheKeyUsingOptions afid options in
  set_localFeedbackCache (<[cachekey := state]> (localFeedbackCache st)) st.

(** The result is [None] where the script reads [undefined]. *)
Definition cacheGet (actorId feedbackId : string) (options : Object)
    (st : CaptivateInstance) : option FbState :=
  let afid := join_tilde actorId feedbackId in
  let cachekey := makeCacheKeyUsingOptions afid options in
  localFeedbackCache st !! cachekey.

(** [const [aid, fid] = actorFeedbackId.split('~', 2)]: without a tilde
    [fid] is [undefined], which the join in [cacheStore] and [cacheGet]
    prints as the empty string. *)
Definition cacheStoreFromFullId (actorFeedbackId : string) (options : Object)
    (state : FbState) (st : CaptivateInstance) : CaptivateInstance :=
  let '(aid, fid) := split2 actorFeedbackId in
  cacheStore aid (default EmptyString fid) options state st.

Definition cacheGetFromFullId (actorFeedbackId : string) (options : Object)
    (st : CaptivateInstance) : option FbState :=
  let '(aid, fid) := split2 actorFeedbackId in
  cacheGet aid (default EmptyString fid) options st.

Definition push_miss (m : CacheMiss) (st : CaptivateInstance) : CaptivateInstance :=
  set_cacheMisses (cacheMisses st ++ [m]) st.

Definition primeFeedbackState (actorFeedbackId : string) (options : Object)
    (st : CaptivateInstance) : CaptivateInstance :=
  match cacheGetFromFullId actorFeedbackId options st with
  | None => push_miss (mkMiss actorFeedbackId options) st
  | Some _ => st
  end.

(** *** The rebuild loop (lines 723-765) *)

(** [/\.feedback\./] matches somewhere in the text. *)
Fixpoint contains (needle hay : string) : bool :=
  String.prefix needle hay
  || match hay with
     | EmptyString => false
     | String _ rest => contains needle rest
     end.

(** [actorId && feedbackId && feedbackId.match(/\.feedback\./)] on the two
    pieces of the id: the refill to launch, if any. *)
Definition refill_of (miss : CacheMiss) : option Refill :=
  let '(actorId, feedbackId) := split2 (miss_id miss) in
  match feedbackId with
  | Some feedbackId =>
      if truthy_string actorId && truthy_string feedbackId
         && contains ".feedback." feedbackId
      then Some (mkRefill actorId feedbackId (miss_options miss))
      else None
  | None => None
  end.

Definition stopCacheChecker (st : CaptivateInstance) : CaptivateInstance :=
  match cacheBuilder st with
  | Some _ => set_cacheBuilder None st
  | None => st
  end.

(** The [while] loop: [stack] is the worklist seen from its popping end.
    The guard [!miss.id === undefined] compares a boolean with [undefined]
    and never skips.  Each iteration clears the staleness mark of the
    popped id, then launches the refill when the id has the right shape. *)
Fixpoint drain (stack : list CacheMiss) (pending : gmap string string)
    (promises : list Refill) : gmap string string * list Refill :=
  match stack with
  | [] => (pending, promises)
  | miss :: rest =>
      let pending := delete (miss_id miss) pending in
      match refill_of miss with
      | Some r => drain rest pending (promises ++ [r])
      | None => drain rest pending promises
      end
  end.

Definition rebuildFeedbackCache (st : CaptivateInstance) : CaptivateInstance :=
  let st := stopCacheChecker st in
  let '(pending, promises) :=
    drain (rev (cacheMisses st)) (pendingFeedbackChanges st) [] in
  let st := set_cacheMisses [] st in
  let st := set_pendingFeedbackChanges pending st in
  let st := emit (map QueryFeedbackState promises) st in
  if (0 <? length promises)%nat
  then set_allSettledWaits (allSettledWaits st ++ [promises]) st
  else st.

Definition startCacheChecker (st : CaptivateInstance) : CaptivateInstance :=
  let st := stopCacheChecker st in
  if (0 <? length (cacheMisses st))%nat then
    let st := rebuildFeedbackCache st in
    set_cacheBuilder (Some (mkTimer Timeout 500 RecheckCache)) st
  else st.

(** The answer to one [_cmp_v1_queryFeedbackState] call: a reply whose JSON
    text parses to a state ([Some]) or does not ([None]), or no reply. *)
Inductive RpcReply : Type :=
| Reply (parsed : option FbState)
| NoReply.

(** How a refill promise ends. *)
Inductive Settlement : Type :=
| Fulfilled (reply : FbState)
| Rejected
| Pending.

(** [queryFeedbackDetails]: the reply is parsed and resolved; a parse
    error or a throwing resolver rejects. *)
Definition queryFeedbackDetails (resolve : FbState -> Outcome FbState) (reply : RpcReply)
  : Settlement :=
  match reply with
  | NoReply => Pending
  | Reply None => Rejected
  | Reply (Some raw) =>
      match resolve raw with
      | Returns state => Fulfilled state
      | Throws => Rejected
      end
  end.

(** The [then]/[catch] pair of one refill: a reply is stored, a failure is
    swallowed. *)
Definition settle_refill (st : CaptivateInstance) (out : Refill * Settlement)
  : CaptivateInstance :=
  match snd out with
  | Fulfilled reply =>
      cacheStore (refill_actorId (fst out)) (refill_feedbackId (fst out))
        (refill_options (fst out)) reply st
  | Rejected | Pending => st
  end.

Definition is_settled (o : Settlement) : bool :=
  match o with
  | Pending => false
  | _ => true
  end.

(** The promises of the [i]-th waiting pass end as [outs] says, in that
    order; once none is pending, [Promise.allSettled] fires and asks for
    one re-evaluation of the feedbacks. *)
Definition settle_batch (i : nat) (outs : list (Refill * Settlement))
    (st : CaptivateInstance) : CaptivateInstance :=
  match allSettledWaits st !! i with
  | Some _ =>
      let st := foldl settle_refill st outs in
      if forallb (fun out => is_settled (snd out)) outs
      then checkFeedbacks (set_allSettledWaits (delete i (allSettledWaits st)) st)
      else st
  | None => st
  end.

(** One rebuild pass followed by the settlement of what it launched. *)
Definition rebuild_pass (outs : list (Refill * Settlement)) (st : CaptivateInstance)
  : CaptivateInstance :=
  settle_batch (length (allSettledWaits st)) outs (rebuildFeedbackCache st).

(** *** The feedback callback (lines 774-819) *)

(** The event Companion passes: [feedbackId] is the composite
    [actorId~feedbackId]. *)
Record FeedbackEvent : Type := mkEvent {
  ev_feedbackId : string;
  ev_options : Object;
  ev_type : string
}.

(** What the callback returns: a boolean for boolean feedbacks, else the
    state found, else [undefined]. *)
Inductive FeedbackValue : Type :=
| ValBool (b : bool)
| ValState (state : FbState)
| ValUndefined.

(** Lines 787-798: a copy of the cached state in which [imageName] gives
    way to the picture of that name, when the image set has one. *)
Definition embed_image (imgs : gmap string string) (result : FbState) : FbState :=
  if hasOwnProperty "imageName" result then
    let processedResult := delete "imageName" result in
    match imgs !! toString_field (prop "imageName" result) with
    | Some imageData => <["png64" := FVal (JStr imageData)]> processedResult
    | None => processedResult
    end
  else result.

(** Line 818: [event.type == 'boolean' ? !!result?.value : result]. *)
Definition feedback_value (type : string) (result : option FbState) : FeedbackValue :=
  if String.eqb type "boolean" then
    ValBool match result with
            | Some r => truthy_field (prop "value" r)
            | None => false
            end
  else match result with
       | Some r => ValState r
       | None => ValUndefined
       end.

(** Lines 781-813: cache lookup and bookkeeping of the worklist.  The
    call [result.hasOwnProperty("imageName")] is the prototype's: the
    cached state is taken to have no field of that name ([unshadowed]
    below), and the facts about a hit assume it. *)
Definition lookup_feedback (event : FeedbackEvent) (st : CaptivateInstance)
  : option FbState * CaptivateInstance :=
  let miss := mkMiss (ev_feedbackId event) (ev_options event) in
  match cacheGetFromFullId (ev_feedbackId event) (ev_options event) st with
  | Some result =>
      let result := embed_image (images st) result in
      match pendingFeedbackChanges st !! ev_feedbackId event with
      | Some mark =>
          if truthy_string mark then (Some result, push_miss miss st)
          else (Some result, st)
      | None => (Some result, st)
      end
  | None => (None, push_miss miss st)
  end.

Definition handleFeedback (event : FeedbackEvent) (st : CaptivateInstance)
  : FeedbackValue * CaptivateInstance :=
  let '(result, st) := lookup_feedback event st in
  let st := startCacheChecker st in
  (feedback_value (ev_type event) result, st).

(** *** The feedback-change notification (lines 396-415) *)

Definition handleFeedbackChangeEvent (resolve : FbState -> Outcome FbState)
    (actorId feedbackId : string) (options : Object) (state : FbState)
    (st : CaptivateInstance) : CaptivateInstance :=
  let feedbackKey := actorId +:+ "~" +:+ feedbackId in
  match resolve state with
  | Returns state =>
      let st := cacheStore actorId feedbackId options state st in
      let st :=
        set_pendingFeedbackChanges (<[feedbackKey := "stale"]> (pendingFeedbackChanges st)) st in
      checkFeedbacks st
  | Throws => st
  end.

(** *** Connection and reconnection watchdog (lines 182-273) *)

Definition serverUrl (c : Config) : option string :=
  match bonjour_host c with
  | Some b =>
      if truthy_string b then Some ("ws://" +:+ b)
      else if truthy_string (host c) && truthy (port c)
      then Some ("ws://" +:+ host c +:+ ":" +:+ toString (port c))
      else None
  | None =>
      if truthy_string (host c) && truthy (port c)
      then Some ("ws://" +:+ host c +:+ ":" +:+ toString (port c))
      else None
  end.

(** Without a server address nothing is attempted; otherwise the status
    goes to [Connecting] and a socket is opened. *)
Definition initQWebChannel (st : CaptivateInstance) : CaptivateInstance :=
  match serverUrl (config st) with
  | None => st
  | Some url => emit [UpdateStatus Connecting; OpenSocket url] st
  end.

(** The socket's ['open'] handler, up to the creation of the channel. *)
Definition on_open (st : CaptivateInstance) : CaptivateInstance :=
  match connectionWatchdog st with
  | Some _ => set_connectionWatchdog None st
  | None => st
  end.

(** The socket's ['error'] handler. *)
Definition on_error (st : CaptivateInstance) : CaptivateInstance :=
  let st := updateStatus BadConfig st in
  let c := config st in
  set_config (mkConfig (bonjour_host c) EmptyString (JStr EmptyString) true) st.

(** The socket's ['close'] handler. *)
Definition on_close (st : CaptivateInstance) : CaptivateInstance :=
  let st := updateStatus Disconnected st in
  match connectionWatchdog st with
  | None => set_connectionWatchdog (Some (mkTimer Interval 5000 RetryConnection)) st
  | Some _ => st
  end.

(** What a live timer runs when it fires. *)
Definition run_task (task : TimerTask) (st : CaptivateInstance) : CaptivateInstance :=
  match task with
  | RetryConnection => initQWebChannel st
  | RecheckCache => startCacheChecker st
  end.

Definition fire_connectionWatchdog (st : CaptivateInstance) : CaptivateInstance :=
  match connectionWatchdog st with
  | Some t => run_task (timer_task t) st
  | None => st
  end.

Definition fire_cacheBuilder (st : CaptivateInstance) : CaptivateInstance :=
  match cacheBuilder st with
  | Some t => run_task (timer_task t) st
  | None => st
  end.

Inductive SocketEvent : Type := SockOpen | SockError | SockClose | WatchdogTick.

Definition socket_step (st : CaptivateInstance) (e : SocketEvent) : CaptivateInstance :=
  match e with
  | SockOpen => on_open st
  | SockError => on_error st
  | SockClose => on_close st
  | WatchdogTick => fire_connectionWatchdog st
  end.

(** *** Histories of the cache *)

(** The two ways the methods change [localFeedbackCache]. *)
Inductive CacheOp : Type :=
| OpStore (actorId feedbackId : string) (options : Object) (state : FbState)
| OpRemovePrefix (pfx : string).

Definition apply_op (st : CaptivateInstance) (op : CacheOp) : CaptivateInstance :=
  match op with
  | OpStore actorId feedbackId options state => cacheStore actorId feedbackId options state st
  | OpRemovePrefix pfx => cacheRemoveKeysWithPrefix pfx st
  end.

(** The FeedbackKey of [(actorId, feedbackId, options)]. *)
Definition feedbackKey (actorId feedbackId : string) (options : Object) : string :=
  makeCacheKeyUsingOptions (join_tilde actorId feedbackId) options.

Definition stores_to (key : string) (op : CacheOp) : Prop :=
  match op with
  | OpStore actorId feedbackId options _ => feedbackKey actorId feedbackId options = key
  | OpRemovePrefix _ => False
  end.

(** The defaults of the configuration form ([lib/config.js]). *)
Definition default_config : Config := mkConfig None "127.0.0.1" (JNum 9023) false.

(** The refills one rebuild pass launches, in launch order: those of the
    well-shaped misses, from the popping end of the worklist. *)
Definition launched (st : CaptivateInstance) : list Refill :=
  omap refill_of (rev (cacheMisses st)).

Definition refill_key (r : Refill) : string :=
  feedbackKey (refill_actorId r) (refill_feedbackId r) (refill_options r).

(** A sample worklist: a refill that will fail, one that will succeed and
    an id without the [actorId~feedbackId] shape. *)
Definition sample_state : FbState := {[ "value" := FVal (JBool true) ]}.

Definition sample_instance : CaptivateInstance :=
  set_pendingFeedbackChanges {[ "A~x.feedback.on" := "stale" ]}
    (set_cacheMisses
       [ mkMiss "A~x.feedback.on" [];
         mkMiss "noactor" [];
         mkMiss "B~x.feedback.off" [("layer", JNum 2)] ]
       (new_instance default_config)).

(** The resolver with no play-state reply, no images and a bitmap library
    that fails to load: enough for states that need no resolution. *)
Definition plain_resolve : FbState -> Outcome FbState :=
  _handleFeedbackState None ∅ FUndefined (fun _ _ => LoadFailed).

(** How the refills of [sample_instance] end, in settlement order: the
    refill for [B] gets a reply that parses and resolves, the one for [A]
    a reply that does not parse. *)
Definition sample_outs : list (Refill * Settlement) :=
  [ (mkRefill "B" "x.feedback.off" [("layer", JNum 2)],
     queryFeedbackDetails plain_resolve (Reply (Some sample_state)));
    (mkRefill "A" "x.feedback.on" [],
     queryFeedbackDetails plain_resolve (Reply None)) ].

(** An instance that has just received a feedback-change notification. *)
Definition notified_instance : CaptivateInstance :=
  handleFeedbackChangeEvent plain_resolve "A" "x.feedback.on" [] sample_state
    (new_instance default_config).

(** A raw state that asks for the running picture of layer [L1], and a
    play-state reply that reports the layer as running. *)
Definition running_png_state : FbState :=
  {[ "pngQueryKey" := FVal (JStr "L1"); "png_running" := FVal (JStr "iVBORw0KGgo=") ]}.

Definition running_playStates : gmap string JValue :=
  {[ "L1" := JObj [("playState", JStr "running")] ]}.

Definition paused_png_state : FbState :=
  {[ "pngQueryKey" := FVal (JStr "L1"); "png_paused" := FVal (JStr "iVBORw0KGgo=") ]}.

Definition paused_playStates : gmap string JValue :=
  {[ "L1" := JObj [("playState", JStr "paused")] ]}.

(** The reconnection timer of the ['close'] handler. *)
Definition reconnect_timer : Timer := mkTimer Interval 5000 RetryConnection.

(** ** Property names every object inherits

    The maps of the model hold the own properties of the script's objects.
    A lookup [obj[name]] in the script also finds what [Object.prototype]
    defines, a call [obj.hasOwnProperty(...)] calls a field of that name
    when the object has one, and an assignment to [__proto__] (as
    [Object.assign] makes for a field of that name) sets no property.  The
    facts below that depend on one of these are stated for names outside
    this list and for objects without such fields. *)
Definition prototype_names : list string :=
  [ "constructor"; "__defineGetter__"; "__defineSetter__"; "hasOwnProperty";
    "__lookupGetter__"; "__lookupSetter__"; "isPrototypeOf";
    "propertyIsEnumerable"; "toString"; "valueOf"; "__proto__"; "toLocaleString" ].

Definition inherited (key : string) : bool := bool_decide (key ∈ prototype_names).

(** The fields of a state that name a picture of the image set. *)
Definition image_fields : list string :=
  [ "overlayImageName"; "overlayImageName_running"; "overlayImageName_paused";
    "imageName" ].

Definition plain_image_names (state : FbState) : bool :=
  forallb (fun field => negb (inherited (toString_field (prop field state)))) image_fields.

(** The fields of a state the resolver turns into a property name. *)
Definition name_fields : list string :=
  [ "overlayQueryKey"; "pngQueryKey"; "overlayImageName";
    "overlayImageName_running"; "overlayImageName_paused"; "imageName" ].

(** A missing field or a primitive value: its conversion to a property
    name calls no method of the value. *)
Definition primitive (f : Field) : bool :=
  match f with
  | FVal (JArr _) | FVal (JObj _) => false
  | _ => true
  end.

Definition primitive_names (state : FbState) : bool :=
  forallb (fun field => primitive (prop field state)) name_fields.

(** The state has no field called [hasOwnProperty]. *)
Definition unshadowed (state : FbState) : bool :=
  negb (hasOwnProperty "hasOwnProperty" state).

(** The entry of the play-state reply for a layer, when it is an object,
    has no field called [hasOwnProperty]. *)
Definition unshadowed_layer (ps : gmap string JValue) (key : Field) : bool :=
  match ps !! toString_field key with
  | Some (JObj props) =>
      match own_property "hasOwnProperty" props with
      | Some _ => false
      | None => true
      end
  | _ => true
  end.

Definition plain_state (state : FbState) : bool :=
  unshadowed state && negb (hasOwnProperty "__proto__" state) && plain_image_names state.

(** ** Further methods of the instance *)

(** The digits [digest('hex')] writes. *)
Definition is_hex_digit (c : ascii) : bool :=
  let n := N_of_ascii c in
  ((48 <=? n) && (n <=? 57) || (97 <=? n) && (n <=? 102))%N.


(** No tilde occurs in the text. *)
Fixpoint tilde_free (s : string) : bool :=
  match s with
  | EmptyString => true
  | String c rest => negb (Ascii.eqb c "~"%char) && tilde_free rest
  end.

(** [configUpdated(config)] (lines 157-167): the configuration is taken
    over with [needsNewConfig] reset, and the connection is attempted. *)
Definition configUpdated (c : Config) (st : CaptivateInstance) : CaptivateInstance :=
  initQWebChannel (set_config (mkConfig (bonjour_host c) (host c) (port c) false) st).

(** [init(config)] (lines 143-150) ends in [configUpdated(config)]. *)
Definition init (c : Config) (st : CaptivateInstance) : CaptivateInstance :=
  configUpdated c st.

(** The timer [startCacheChecker] arms. *)
Definition checker_timer : Timer := mkTimer Timeout 500 RecheckCache.

(** A raw state with a running overlay for layer [L1] over a base picture,
    an image set that knows the overlay, and a bitmap library standing in
    for the real one. *)
Definition overlay_state : FbState :=
  {[ "overlayQueryKey" := FVal (JStr "L1");
     "overlayImageName_running" := FVal (JStr "glow");
     "png64" := FVal (JStr "QkFTRQ==") ]}.

(** A state that names its overlay outright. *)
Definition named_overlay_state : FbState :=
  {[ "overlayImageName" := FVal (JStr "glow"); "png64" := FVal (JStr "QkFTRQ==") ]}.

Definition glow_images : gmap string string := {[ "glow" := "R0xPVw==" ]}.

Definition sample_composite (base : Field) (overlay : string) : Composite :=
  Composited "Q09NUE9TSVRF".

(** ** [debounce] (lines 45-53)

    The closure keeps one timer.  Every call clears it and arms a new one
    that remembers the arguments of that call; when the timer fires, the
    wrapped function runs with them.  [db_runs] lists the runs of the
    wrapped function, by their arguments. *)

Module Debounce.
Section Debounce.
Context {A : Type}.

Record Debounced : Type := mkDebounced {
  db_timeout : Z;
  db_timer : option A;
  db_runs : list A
}.

Inductive Event : Type :=
| Call (args : A)
| Fire.

(** [debounce(func, timeout = 1000)]. *)
Definition debounce (timeout : option Z) : Debounced :=
  mkDebounced (default 1000 timeout) None [].

Definition step (d : Debounced) (e : Event) : Debounced :=
  match e with
  | Call args => mkDebounced (db_timeout d) (Some args) (db_runs d)
  | Fire =>
      match db_timer d with
      | Some args => mkDebounced (db_timeout d) None (db_runs d ++ [args])
      | None => d
      end
  end.

Definition is_fire (e : Event) : bool :=
  match e with
  | Fire => true
  | Call _ => false
  end.

End Debounce.
Arguments Debounced A : clear implicits.
Arguments Event A : clear implicits.
End Debounce.

(** ** Ids and variable definitions (lines 306-320) *)

Fixpoint string_map (f : ascii -> ascii) (s : string) : string :=
  match s with
  | EmptyString => EmptyString
  | String c rest => String (f c) (string_map f rest)
  end.

Fixpoint string_forall (p : ascii -> bool) (s : string) : bool :=
  match s with
  | EmptyString => true
  | String c rest => p c && string_forall p rest
  end.

(** Text in the ASCII range, where one character is one code unit and
    [toLowerCase] only moves [A-Z]. *)
Definition is_ascii (s : string) : bool :=
  string_forall (fun c => (N_of_ascii c <? 128)%N) s.

Definition lower_char (c : ascii) : ascii :=
  let n := N_of_ascii c in
  if ((65 <=? n) && (n <=? 90))%N then ascii_of_N (n + 32) else c.

(** [[a-zA-Z0-9]]. *)
Definition is_alnum (c : ascii) : bool :=
  let n := N_of_ascii c in
  ((48 <=? n) && (n <=? 57) || (65 <=? n) && (n <=? 90) || (97 <=? n) && (n <=? 122))%N.

(** [s.toLowerCase()] on ASCII text. *)
Definition toLowerCase (s : string) : string := string_map lower_char s.

(** [s.replace(/[^a-zA-Z0-9]/g, '_')]. *)
Definition replace_non_alnum (s : string) : string :=
  string_map (fun c => if is_alnum c then c else "_"%char) s.

(** [makeVarDefinition(title, varname)], from the title's name: the label
    and the variable id. *)
Definition makeVarDefinition (title_name varname : string) : string * string :=
  (title_name +:+ ": " +:+ varname,
   replace_non_alnum (toLowerCase (title_name +:+ "__" +:+ varname))).

Definition variableId (title_name varname : string) : string :=
  snd (makeVarDefinition title_name varname).

(** The characters a variable id is made of. *)
Definition is_id_char (c : ascii) : bool :=
  let n := N_of_ascii c in
  ((48 <=? n) && (n <=? 57) || (97 <=? n) && (n <=? 122) || (n =? 95))%N.

Definition makeCustomActionId (actionName : string) : string :=
  "newblue.automation.js." +:+ actionName.


(** ** [rgb] (lines 849-859) *)

Module Rgb.

(** What [parseInt] returns: [NaN], an integer, or an infinity (for a
    digit string too long for a double). *)
Inductive Parsed : Type :=
| NaN
| Int (n : Z)
| Infinite.

(** An integer modulo 2^32, read as a signed 32-bit number. *)
Definition wrap32 (n : Z) : Z := (n + 2 ^ 31) mod 2 ^ 32 - 2 ^ 31.

(** [ToInt32]. *)
Definition toInt32 (p : Parsed) : Z :=
  match p with
  | Int n => wrap32 n
  | NaN | Infinite => 0
  end.

(** The low byte of a parsed number. *)
Definition low_byte (p : Parsed) : Z :=
  match p with
  | Int n => n mod 256
  | NaN | Infinite => 0
  end.

(** [x & 0xff], [x << k] and [x | y] on 32-bit integers. *)
Definition and_ff (p : Parsed) : Z := Z.land (toInt32 p) 0xff.
Definition shl32 (x k : Z) : Z := wrap32 (Z.shiftl x k).
Definition or32 (x y : Z) : Z := wrap32 (Z.lor x y).

Definition isNaN (p : Parsed) : bool :=
  match p with
  | NaN => true
  | _ => false
  end.

Section Rgb.
(** [parseInt(value, base)] is the engine's. *)
Variable parseInt : JValue -> Z -> Parsed.

(** The result is [None] where the script returns [false]. *)
Definition rgb (r g b : JValue) (base : option Z) : option Z :=
  let base := default 10 base in
  let r := parseInt r base in
  let g := parseInt g base in
  let b := parseInt b base in
  if isNaN r || isNaN g || isNaN b then None
  else Some (or32 (or32 (shl32 (and_ff r) 16) (shl32 (and_ff g) 8)) (and_ff b)).
End Rgb.

End Rgb.

(** ** Titles and variables (lines 343-456)

    The title objects Captivate reports are shared between [titles],
    [titlesByName], [titlesById] and [varData]: a title is referred to by
    its position in [titles], and the assignment to a variable of a title
    in [setVar] is an update at that position.

    The maps hold the own properties of the script's objects.  What a plain
    object inherits from [Object.prototype] is not followed: a call that
    would assign to [__proto__], or read an inherited property where the
    script expects an entry, has no result here ([None]); nor has one that
    makes a variable id from a name that is not ASCII text. *)

Module Titles.

Record TitleVariable : Type := mkVariable {
  variable : string;
  value : JValue
}.

Record Title : Type := mkTitle {
  title_id : JValue;
  title_name : string;
  title_variables : list TitleVariable
}.

(** An entry of [varData]: [{title, varname, value}]. *)
Record VarDatum : Type := mkDatum {
  datum_title : nat;
  datum_varname : string;
  datum_value : JValue
}.

(** The calls to Companion's variable store. *)
Inductive ConsoleCall : Type :=
| SetVariableDefinitions (defs : list (string * string))
| SetVariableValues (values : gmap string JValue).

Record Registry : Type := mkRegistry {
  titles : list Title;
  titlesByName : gmap string nat;
  titlesById : gmap string nat;
  varData : gmap string VarDatum;
  varValues : gmap string JValue;
  variableNames : list string;
  console : list ConsoleCall
}.

(** The registry of a new instance.  The constructor leaves [titlesById]
    and [varValues] undefined; reading [titlesById] then throws inside the
    [try] of [handleNotification], as an empty map makes it do nothing. *)
Definition empty_registry : Registry := mkRegistry [] ∅ ∅ ∅ ∅ [] [].

(** How a method ends: normally or by throwing. *)
Inductive Completion : Type := Normal | Thrown.

(** [varnames.add(name)] on a [Set], kept in insertion order. *)
Definition set_add (name : string) (names : list string) : list string :=
  if decide (name ∈ names) then names else names ++ [name].

(** The state of the loops of [getCurrentTitles]. *)
Record Pass : Type := mkPass {
  p_byName : gmap string nat;
  p_byId : gmap string nat;
  p_defs : list (string * string);
  p_varData : gmap string VarDatum;
  p_varValues : gmap string JValue;
  p_varnames : list string
}.

Definition empty_pass : Pass := mkPass ∅ ∅ [] ∅ ∅ [].

(** The body of [for (let variable of title.variables)]. *)
Definition register_variable (ref : nat) (title : Title) (p : Pass) (x : TitleVariable)
  : Pass :=
  let def := makeVarDefinition (title_name title) (variable x) in
  mkPass (p_byName p) (p_byId p)
    (p_defs p ++ [def])
    (<[snd def := mkDatum ref (variable x) (value x)]> (p_varData p))
    (<[snd def := value x]> (p_varValues p))
    (set_add (variable x) (p_varnames p)).

(** The body of [for (let title of this.titles)], for the title at
    position [ref]. *)
Definition register_title (ref : nat) (title : Title) (p : Pass) : Pass :=
  let p := mkPass (<[title_name title := ref]> (p_byName p))
             (<[toString (title_id title) := ref]> (p_byId p))
             (p_defs p) (p_varData p) (p_varValues p) (p_varnames p) in
  foldl (register_variable ref title) p (title_variables title).

Fixpoint register_titles (ref : nat) (ts : list Title) (p : Pass) : Pass :=
  match ts with
  | [] => p
  | title :: rest => register_titles (S ref) rest (register_title ref title p)
  end.

(** The names of the title and of its variables are ASCII text (where
    the bytes of the model's strings are the units of the script's), and no
    assignment of the loops is to [__proto__]. *)
Definition plain_title (title : Title) : bool :=
  is_ascii (title_name title)
  && negb (String.eqb (title_name title) "__proto__")
  && negb (String.eqb (toString (title_id title)) "__proto__")
  && forallb
       (fun x =>
          is_ascii (variable x)
          && negb (String.eqb (variableId (title_name title) (variable x)) "__proto__"))
       (title_variables title).

Definition plain_titles (ts : list Title) : bool := forallb plain_title ts.

(** The reply to [getTitleControlInfo]: text that does not parse, the
    text [null], or parsed data with its [titles] field ([None] when the
    field is missing or null). *)
Inductive Reply : Type :=
| Unparsable
| ParsedNull
| Parsed (titles_field : option (list Title)).

(** [getCurrentTitles()], taken as one step (no notification is handled
    while the reply is awaited).  The two variable maps are emptied before
    the reply is looked at; on [null] the two indexes are emptied and the
    old list is reversed before [data.titles] throws. *)
Definition getCurrentTitles (reply : Reply) (reg : Registry)
  : option (Completion * Registry) :=
  match reply with
  | Unparsable =>
      Some (Thrown,
            mkRegistry (titles reg) (titlesByName reg) (titlesById reg) ∅ ∅
              (variableNames reg) (console reg))
  | ParsedNull =>
      Some (Thrown,
            mkRegistry (rev (titles reg)) ∅ ∅ ∅ ∅ (variableNames reg) (console reg))
  | Parsed titles_field =>
      let ts := rev (default [] titles_field) in
      if plain_titles ts then
        let p := register_titles 0 ts empty_pass in
        Some (Normal,
              mkRegistry ts (p_byName p) (p_byId p) (p_varData p) (p_varValues p)
                (merge_sort String.le (p_varnames p))
                (console reg
                 ++ [SetVariableDefinitions (p_defs p); SetVariableValues (p_varValues p)]))
      else None
  end.

(** The first variable called [name] takes the value
    ([if (titlevar.variable == name) { ...; break }]). *)
Fixpoint assign_first (name : string) (v : JValue) (vars : list TitleVariable)
  : list TitleVariable :=
  match vars with
  | [] => []
  | x :: rest =>
      if String.eqb (variable x) name then mkVariable (variable x) v :: rest
      else x :: assign_first name v rest
  end.

(** The argument of [setVar]: [{varid, title, name, value}], absent
    members being [None] (an absent name is the empty text). *)
Record SetVarArgs : Type := mkArgs {
  a_varid : option string;
  a_title : option nat;
  a_name : string;
  a_value : JValue
}.

Definition truthy_option (s : option string) : bool :=
  match s with
  | Some s => truthy_string s
  | None => false
  end.

(** [setVar].  A title is a position of [titles]; a position past its
    end refers to no object of the script. *)
Definition setVar (args : SetVarArgs) (reg : Registry) : option (Completion * Registry) :=
  varid ←
    match a_title args with
    | Some ref =>
        if truthy_string (a_name args) && negb (truthy_option (a_varid args)) then
          title ← titles reg !! ref;
          if is_ascii (title_name title) && is_ascii (a_name args)
          then Some (Some (variableId (title_name title) (a_name args)))
          else None
        else Some (a_varid args)
    | None => Some (a_varid args)
    end;
  let key := default "undefined" varid in
  '(reg, title) ←
    match varData reg !! key with
    | Some d =>
        Some (mkRegistry (titles reg) (titlesByName reg) (titlesById reg)
                (<[key := mkDatum (datum_title d) (datum_varname d) (a_value args)]>
                   (varData reg))
                (<[key := a_value args]> (varValues reg))
                (variableNames reg) (console reg),
              Some (datum_title d))
    | None => if inherited key then None else Some (reg, a_title args)
    end;
  let reg :=
    mkRegistry (titles reg) (titlesByName reg) (titlesById reg) (varData reg)
      (varValues reg) (variableNames reg)
      (console reg ++ [SetVariableValues {[ key := a_value args ]}]) in
  match title with
  | Some ref =>
      t ← titles reg !! ref;
      Some (Normal,
            mkRegistry
              (<[ref := mkTitle (title_id t) (title_name t)
                          (assign_first (a_name args) (a_value args) (title_variables t))]>
                 (titles reg))
              (titlesByName reg) (titlesById reg) (varData reg) (varValues reg)
              (variableNames reg) (console reg))
  | None => Some (Thrown, reg)
  end.

(** A parsed notification, [{event, id, variables}]. *)
Record Notification : Type := mkNotification {
  n_event : string;
  n_id : option JValue;
  n_variables : option (list (string * JValue))
}.

(** The loop over the variables of a notification; a throw ends it. *)
Fixpoint setVars (ref : nat) (vars : list (string * JValue)) (reg : Registry)
  : option (Completion * Registry) :=
  match vars with
  | [] => Some (Normal, reg)
  | (name, v) :: rest =>
      match setVar (mkArgs None (Some ref) name v) reg with
      | Some (Normal, reg) => setVars ref rest reg
      | Some (Thrown, reg) => Some (Thrown, reg)
      | None => None
      end
  end.

(** [handleNotification(msg)], on the parsed message ([None]: the text
    does not parse, or is [null]); whatever is thrown inside is caught. *)
Definition handleNotification (msg : option Notification) (reg : Registry)
  : option Registry :=
  match msg with
  | None => Some reg
  | Some n =>
      match n_id n, n_variables n with
      | Some id, Some vars =>
          if String.eqb (n_event n) "data" && truthy id then
            match titlesById reg !! toString id with
            | Some ref => snd <$> setVars ref vars reg
            | None => if inherited (toString id) then None else Some reg
            end
          else Some reg
      | _, _ => Some reg
      end
  end.

End Titles.

Module TitleFacts.
Import Titles.

(** The definition Companion gets for a variable of a title. *)
Definition definition_of (title : Title) (x : TitleVariable) : string * string :=
  makeVarDefinition (title_name title) (variable x).

Definition definitions_of (title : Title) : list (string * string) :=
  map (definition_of title) (title_variables title).

(** The variable id of a variable of a title. *)
Definition key_of (title : Title) (x : TitleVariable) : string :=
  variableId (title_name title) (variable x).

Definition keys_of (title : Title) : list string :=
  map (key_of title) (title_variables title).




(** A run of notifications, oldest first. *)
Definition notifications (msgs : list (option Notification)) (reg : Registry)
  : option Registry :=
  foldl (fun r msg => r ≫= handleNotification msg) (Some reg) msgs.

(** Nothing is remembered of the variables. *)
Definition forgotten (reg : Registry) : Prop :=
  varData reg = ∅ /\ varValues reg = ∅.


(** A reply with two titles, as Captivate lists them. *)
Definition sample_titles : list Title :=
  [ mkTitle (JStr "t2") "Score Bug" [mkVariable "Home" (JNum 1); mkVariable "Away" (JNum 0)];
    mkTitle (JStr "t1") "Lower Third" [mkVariable "Name" (JStr "Ada")] ].


Definition sample_registry : Registry :=
  default empty_registry (snd <$> getCurrentTitles (Parsed (Some sample_titles)) empty_registry).

End TitleFacts.
(** * Properties *)

Section JsonText.
Import Json.

(** *** The serialisation determines the value

    Every value's text is self-delimiting: followed by a comma, a closing
    bracket or nothing, it cannot be confused with the text of another
    value.  The argument goes through a one-character decoder for the
    string escapes and a digit-by-digit comparison for numbers. *)

Lemma unescape_escape_char (c : ascii) (r : list ascii) :
  unescape (escape_char c ++ r) = Some (c, r).
Proof. destruct c as [[] [] [] [] [] [] [] []]; reflexivity. Qed.

Lemma escaped_body_inj (l1 l2 r1 r2 : list ascii) :
  flat_map escape_char l1 ++ dquote :: r1 = flat_map escape_char l2 ++ dquote :: r2 ->
  l1 = l2 /\ r1 = r2.
Proof.
  revert l2. induction l1 as [|c1 l1 IH]; intros [|c2 l2] E; cbn [flat_map] in E.
  - cbn in E. by inversion E.
  - rewrite <- app_assoc in E. apply (f_equal unescape) in E.
    rewrite unescape_escape_char in E. discriminate.
  - rewrite <- app_assoc in E. apply (f_equal unescape) in E.
    rewrite unescape_escape_char in E. discriminate.
  - rewrite <- !app_assoc in E. apply (f_equal unescape) in E.
    rewrite !unescape_escape_char in E. inversion E as [[Hc Hrest]].
    destruct (IH _ Hrest) as [-> ->]. done.
Qed.

Lemma chars_inj (s1 s2 : string) : chars s1 = chars s2 -> s1 = s2.
Proof.
  intros E. rewrite <- (string_of_list_ascii_of_string s1),
    <- (string_of_list_ascii_of_string s2). unfold chars in E. by rewrite E.
Qed.

Lemma quote_inj (s1 s2 : string) (r1 r2 : list ascii) :
  quote s1 ++ r1 = quote s2 ++ r2 -> s1 = s2 /\ r1 = r2.
Proof.
  unfold quote. cbn [app]. rewrite <- !app_assoc. cbn [app]. intros E.
  inversion E as [E']. apply escaped_body_inj in E' as [Hs ->].
  split; [by apply chars_inj | done].
Qed.

Lemma closes_no_digit (r : list ascii) : closes r -> no_digit_ahead r.
Proof. destruct r as [|c r]; [done|]. by intros [-> | [-> | ->]]. Qed.

Lemma uint_text_inj (u1 u2 : Decimal.uint) (r1 r2 : list ascii) :
  no_digit_ahead r1 -> no_digit_ahead r2 ->
  chars (NilEmpty.string_of_uint u1) ++ r1 = chars (NilEmpty.string_of_uint u2) ++ r2 ->
  u1 = u2 /\ r1 = r2.
Proof.
  intros H1 H2. revert u2.
  induction u1 as [|u1 IH|u1 IH|u1 IH|u1 IH|u1 IH|u1 IH|u1 IH|u1 IH|u1 IH|u1 IH];
    intros [|u2|u2|u2|u2|u2|u2|u2|u2|u2|u2] E; cbn in E;
    try (by injection E as Ht; destruct (IH _ Ht) as [-> ->]);
    try (by split);
    try (subst r1; cbn in H1; discriminate H1);
    try (subst r2; cbn in H2; discriminate H2);
    try discriminate E.
Qed.

Lemma uint_text_head (u : Decimal.uint) (r : list ascii) :
  u <> Decimal.Nil ->
  exists c t, chars (NilEmpty.string_of_uint u) ++ r = c :: t /\ is_digit c = true.
Proof. destruct u; intros Hu; try done; cbn; eauto. Qed.

Lemma nilzero_nonnil (u : Decimal.uint) :
  u <> Decimal.Nil -> NilZero.string_of_uint u = NilEmpty.string_of_uint u.
Proof. by destruct u. Qed.

Lemma to_int_shape (n : Z) :
  exists u, u <> Decimal.Nil /\
    (Z.to_int n = Decimal.Pos u \/ Z.to_int n = Decimal.Neg u).
Proof.
  destruct n as [|p|p]; cbn.
  - exists (Decimal.D0 Decimal.Nil). split; [done | by left].
  - exists (Pos.to_uint p). split; [apply Unsigned.to_uint_nonnil | by left].
  - exists (Pos.to_uint p). split; [apply Unsigned.to_uint_nonnil | by right].
Qed.

Lemma num_text_head (n : Z) (r : list ascii) :
  exists c t, chars (num_text n) ++ r = c :: t /\ (is_digit c = true \/ c = "-"%char).
Proof.
  unfold num_text. destruct (to_int_shape n) as (u & Hu & [-> | ->]); cbn;
    rewrite (nilzero_nonnil u Hu).
  - destruct (uint_text_head u r Hu) as (c & t & E & Hc). eauto 6.
  - eauto 6.
Qed.

Lemma num_text_inj (n1 n2 : Z) (r1 r2 : list ascii) :
  no_digit_ahead r1 -> no_digit_ahead r2 ->
  chars (num_text n1) ++ r1 = chars (num_text n2) ++ r2 -> n1 = n2 /\ r1 = r2.
Proof.
  intros H1 H2 E. unfold num_text in E.
  destruct (to_int_shape n1) as (u1 & Hu1 & Hn1), (to_int_shape n2) as (u2 & Hu2 & Hn2).
  assert (Z.to_int n1 = Z.to_int n2 /\ r1 = r2) as [Hz ->].
  { destruct Hn1 as [Hn1 | Hn1], Hn2 as [Hn2 | Hn2]; rewrite Hn1, Hn2 in E |- *;
      cbn in E; rewrite (nilzero_nonnil u1 Hu1), (nilzero_nonnil u2 Hu2) in E.
    - destruct (uint_text_inj _ _ _ _ H1 H2 E) as [-> ->]. done.
    - destruct (uint_text_head u1 r1 Hu1) as (c & t & Ec & Hc).
      unfold chars in Ec. rewrite Ec in E. inversion E; subst. discriminate Hc.
    - destruct (uint_text_head u2 r2 Hu2) as (c & t & Ec & Hc).
      unfold chars in Ec. rewrite Ec in E. inversion E; subst. discriminate Hc.
    - inversion E as [E']. destruct (uint_text_inj _ _ _ _ H1 H2 E') as [-> ->]. done. }
  split; [|done]. rewrite <- (DecimalZ.of_to n1), <- (DecimalZ.of_to n2). by rewrite Hz.
Qed.

Lemma text_head (v : JValue) (r : list ascii) :
  exists c t, text v ++ r = c :: t /\ kind_char v c.
Proof.
  destruct v as [|[]|n|s|l|l]; cbn [text kind_char]; try (cbn; by eauto).
  apply num_text_head.
Qed.

Lemma kind_char_opens (v : JValue) (c : ascii) :
  kind_char v c -> c <> ","%char /\ c <> "]"%char /\ c <> "}"%char.
Proof.
  destruct v as [|[]|n|s|l|l]; cbn; try (by intros ->).
  intros [H | ->]; [|done]. repeat split; intros ->; discriminate H.
Qed.

Lemma commas_cons (t : list ascii) (rest : list (list ascii)) (r : list ascii) :
  commas (t :: rest) ++ r =
  t ++ match rest with [] => r | _ :: _ => ","%char :: commas rest ++ r end.
Proof. destruct rest; cbn [commas]; [done|]. by rewrite <- app_assoc. Qed.

Section Items.
Context {A : Type} (f : A -> list ascii) (close : ascii).
Hypothesis close_bracket : close = "]"%char \/ close = "}"%char.
Hypothesis item_head :
  forall x r, exists c t, f x ++ r = c :: t /\ c <> close.

Lemma closes_tail (rest : list (list ascii)) (r : list ascii) :
  closes match rest with [] => close :: r | _ :: _ => ","%char :: commas rest ++ close :: r end.
Proof. destruct rest; cbn; [|by left]. destruct close_bracket; auto. Qed.

Lemma commas_inj (l1 l2 : list A) (r1 r2 : list ascii) :
  Forall (fun x => forall y s1 s2, closes s1 -> closes s2 ->
                     f x ++ s1 = f y ++ s2 -> x = y /\ s1 = s2) l1 ->
  commas (map f l1) ++ close :: r1 = commas (map f l2) ++ close :: r2 ->
  l1 = l2 /\ r1 = r2.
Proof.
  intros Hall. revert l2.
  induction Hall as [|x l1 Hx _ IH]; intros [|y l2] E; cbn [map] in E.
  - cbn in E. by inversion E.
  - rewrite commas_cons in E. cbn [commas app] in E.
    destruct (item_head y
      match map f l2 with [] => close :: r2 | _ :: _ => ","%char :: commas (map f l2) ++ close :: r2 end)
      as (c & t & Ec & Hc).
    rewrite Ec in E. inversion E. congruence.
  - rewrite commas_cons in E. cbn [commas app] in E.
    destruct (item_head x
      match map f l1 with [] => close :: r1 | _ :: _ => ","%char :: commas (map f l1) ++ close :: r1 end)
      as (c & t & Ec & Hc).
    rewrite Ec in E. inversion E. congruence.
  - rewrite !commas_cons in E.
    apply Hx in E as [-> E]; [|apply closes_tail..].
    destruct l1 as [|x1 l1], l2 as [|y2 l2]; cbn [map] in E.
    + by inversion E.
    + inversion E as [[Hc Hr]]. destruct close_bracket; subst close; discriminate.
    + inversion E as [[Hc Hr]]. destruct close_bracket; subst close; discriminate.
    + injection E as E. destruct (IH (y2 :: l2) E) as [-> ->]. done.
Qed.
End Items.

Lemma text_obj (l : Object) :
  text (JObj l) = "{"%char :: commas (map member l) ++ ["}"%char].
Proof. reflexivity. Qed.

Lemma member_head (kv : string * JValue) (r : list ascii) :
  exists c t, member kv ++ r = c :: t /\ c <> "}"%char.
Proof. unfold member, quote. cbn. eexists _, _. split; [done|]. by intros [=]. Qed.

Lemma item_text_head (close : ascii) (v : JValue) (r : list ascii) :
  close = "]"%char \/ close = "}"%char ->
  exists c t, text v ++ r = c :: t /\ c <> close.
Proof.
  intros Hclose. destruct (text_head v r) as (c & t & E & Hk).
  apply kind_char_opens in Hk as (_ & ? & ?).
  exists c, t. split; [done|]. by destruct Hclose as [-> | ->].
Qed.

Ltac head_clash E :=
  match type of E with
  | context [chars (num_text ?n) ++ ?r] =>
      let c := fresh "c" in let t := fresh "t" in
      let Ec := fresh "Ec" in let Hc := fresh "Hc" in
      destruct (num_text_head n r) as (c & t & Ec & [Hc | Hc]);
      rewrite Ec in E; inversion E; subst; discriminate
  end.

(** Self-delimiting texts: equal texts followed by closers come from equal
    values. *)
Lemma text_inj (v1 : JValue) :
  forall v2 r1 r2, closes r1 -> closes r2 ->
    text v1 ++ r1 = text v2 ++ r2 -> v1 = v2 /\ r1 = r2.
Proof.
  induction v1 as [|b1|n1|s1|l1 IH|l1 IH] using JValue_nested_ind;
    intros [|b2|n2|s2|l2|l2] r1 r2 H1 H2 E;
    try (destruct b1); try (destruct b2);
    cbn [text] in E;
    try (cbn in E; by inversion E);
    try (by head_clash E);
    try (unfold quote in E; cbn in E; discriminate E).
  - apply num_text_inj in E as [-> ->]; auto using closes_no_digit.
  - apply quote_inj in E as [-> ->]. done.
  - cbn [app] in E. injection E as E. rewrite <- !app_assoc in E. cbn [app] in E.
    apply (commas_inj text "]"%char) in E as [-> ->]; auto.
    intros x r. apply item_text_head. by left.
  - change (fun kv : string * JValue => quote (fst kv) ++ ":"%char :: text (snd kv))
      with member in E.
    cbn [app] in E. injection E as E. rewrite <- !app_assoc in E. cbn [app] in E.
    apply (commas_inj member "}"%char) in E as [-> ->]; auto using member_head.
    eapply Forall_impl; [exact IH|]. intros [k1 v1] Hv [k2 v2] s1 s2 Hs1 Hs2.
    cbn [snd] in Hv. unfold member. cbn [fst snd]. rewrite <- !app_assoc. cbn [app].
    intros Em. apply quote_inj in Em as [-> Em]. injection Em as Em.
    destruct (Hv _ _ _ Hs1 Hs2 Em) as [-> ->]. done.
Qed.

Lemma stringify_inj (v1 v2 : JValue) : stringify v1 = stringify v2 -> v1 = v2.
Proof.
  unfold stringify. intros E.
  apply (f_equal list_ascii_of_string) in E.
  rewrite !list_ascii_of_string_of_list_ascii in E.
  destruct (text_inj v1 v2 [] [] I I) as [-> _]; [by rewrite !app_nil_r | done].
Qed.

End JsonText.

Section MD5Vectors.
Import MD5.

(** The test suite of RFC 1321, appendix A.5. *)
Example md5_empty : md5hex EmptyString = "d41d8cd98f00b204e9800998ecf8427e".
Proof. vm_compute. reflexivity. Qed.

Example md5_abc : md5hex "abc" = "900150983cd24fb0d6963f7d28e17f72".
Proof. vm_compute. reflexivity. Qed.

Example md5_message_digest : md5hex "message digest" = "f96b697d7cb7938d525a2f31aaf161d0".
Proof. vm_compute. reflexivity. Qed.

Example md5_two_blocks :
  md5hex "12345678901234567890123456789012345678901234567890123456789012345678901234567890"
  = "57edf4a22be3c955ac49da2e2107b67a".
Proof. vm_compute. reflexivity. Qed.

End MD5Vectors.

Section KeyText.
Import Key.

Example key_no_options :
  makeCacheKeyUsingOptions "A~newblue.automation.js.feedback.x.y" []
  = "A~newblue.automation.js.feedback.x.y".
Proof. reflexivity. Qed.

Example key_with_options :
  makeCacheKeyUsingOptions "A~f" [("a", JNum 1); ("b", JNum 2)]
  = "A~f+608de49a4600dbb5b173492759792e4a".
Proof. vm_compute. reflexivity. Qed.

Example split2_three : split2 "a~b~c" = ("a", Some "b").
Proof. reflexivity. Qed.

Example split2_none : split2 "abc" = ("abc", None).
Proof. reflexivity. Qed.

Lemma append_cons (c : ascii) (s t : string) : String c s +:+ t = String c (s +:+ t).
Proof. reflexivity. Qed.

Lemma append_plus_neq (key h : string) : key <> key +:+ "+" +:+ h.
Proof.
  induction key as [|c key IH]; [done|].
  rewrite append_cons. intros E. injection E as E. by apply IH.
Qed.

End KeyText.

(** ** Key derivation *)

Section KeyDerivation.

Lemma same_hash_same_options (o1 o2 : Object) :
  (Json.stringify (JObj o1) <> Json.stringify (JObj o2) ->
   MD5.md5hex (Json.stringify (JObj o1)) <> MD5.md5hex (Json.stringify (JObj o2))) ->
  MD5.md5hex (Json.stringify (JObj o1)) = MD5.md5hex (Json.stringify (JObj o2)) ->
  o1 = o2.
Proof.
  intros Hfree Hhash.
  destruct (decide (Json.stringify (JObj o1) = Json.stringify (JObj o2))) as [E | Hne].
  - apply stringify_inj in E. by injection E.
  - by destruct (Hfree Hne).
Qed.

End KeyDerivation.

(** C1, as the code has it: the fingerprint is taken of the options in
    their enumeration order.  For every actorId and feedbackId, unless MD5
    collides on the two JSON texts, two option objects get the same
    FeedbackKey exactly when they list the same properties with the same
    values in the same order; in particular options differing in a value
    get different keys. *)
Theorem makeCacheKeyUsingOptions_same_key_iff (actorId feedbackId : string)
    (o1 o2 : Object) :
  (Json.stringify (JObj o1) <> Json.stringify (JObj o2) ->
   MD5.md5hex (Json.stringify (JObj o1)) <> MD5.md5hex (Json.stringify (JObj o2))) ->
  feedbackKey actorId feedbackId o1 = feedbackKey actorId feedbackId o2 <-> o1 = o2.
Proof.
  intros Hfree. split; [|by intros ->].
  unfold feedbackKey, makeCacheKeyUsingOptions.
  destruct o1 as [|p1 o1], o2 as [|p2 o2]; cbn [length Nat.ltb Nat.leb]; intros E.
  - done.
  - by apply append_plus_neq in E.
  - symmetry in E. by apply append_plus_neq in E.
  - do 2 apply String.app_inj in E. by apply same_hash_same_options.
Qed.

Lemma makeCacheKeyUsingOptions_same_key_iff_witness :
  feedbackKey "A" "x.feedback.on" [("layer", JNum 1)]
  = feedbackKey "A" "x.feedback.on" [("layer", JNum 2)]
  <-> [("layer", JNum 1)] = [("layer", JNum 2)].
Proof.
  apply makeCacheKeyUsingOptions_same_key_iff.
  intros _. vm_compute. discriminate.
Defined.

(** C1 as stated fails: the same two properties listed in the other order
    give another JSON text, hence another fingerprint. *)
Lemma makeCacheKeyUsingOptions_order_sensitive :
  ~ (forall (actorId feedbackId : string) (o1 o2 : Object),
        o1 <> [] -> o2 <> [] -> NoDup (map fst o1) -> o1 ≡ₚ o2 ->
        feedbackKey actorId feedbackId o1 = feedbackKey actorId feedbackId o2).
Proof.
  intros H.
  specialize (H "A" "x.feedback.on"
                [("a", JNum 1); ("b", JNum 2)] [("b", JNum 2); ("a", JNum 1)]).
  assert (feedbackKey "A" "x.feedback.on" [("a", JNum 1); ("b", JNum 2)]
          = feedbackKey "A" "x.feedback.on" [("b", JNum 2); ("a", JNum 1)]) as E.
  { apply H; [done | done | | apply perm_swap].
    cbn. apply NoDup_cons. split; [|apply NoDup_singleton].
    intros Hin. apply list_elem_of_singleton in Hin. discriminate Hin. }
  vm_compute in E. discriminate E.
Qed.

(** ** The cache *)

Section Cache.

Lemma remove_prefix_fold (pfx : string) (m0 m : gmap string FbState) (key : string) :
  map_fold (fun k _ cache => if String.prefix pfx k then delete k cache else cache) m0 m
    !! key
  = match m !! key with
    | Some _ => if String.prefix pfx key then None else m0 !! key
    | None => m0 !! key
    end.
Proof.
  revert key.
  apply (map_fold_weak_ind
    (fun r m' => forall key, r !! key =
       match m' !! key with
       | Some _ => if String.prefix pfx key then None else m0 !! key
       | None => m0 !! key
       end)).
  - intros key. by rewrite lookup_empty.
  - intros i x m' r Hi IH key.
    destruct (decide (i = key)) as [-> | Hne].
    + rewrite lookup_insert_eq. destruct (String.prefix pfx key) eqn:Hp.
      * apply lookup_delete_eq.
      * by rewrite IH, Hi.
    + rewrite lookup_insert_ne by done.
      destruct (String.prefix pfx i); [rewrite lookup_delete_ne by done|]; apply IH.
Qed.

End Cache.

(** C6: [cacheRemoveKeysWithPrefix] removes every entry whose key starts
    with the prefix and leaves every other entry as it was. *)
Theorem cacheRemoveKeysWithPrefix_lookup (pfx : string) (st : CaptivateInstance)
    (key : string) :
  localFeedbackCache (cacheRemoveKeysWithPrefix pfx st) !! key
  = if String.prefix pfx key then None else localFeedbackCache st !! key.
Proof.
  unfold cacheRemoveKeysWithPrefix. cbn. rewrite remove_prefix_fold.
  by destruct (localFeedbackCache st !! key), (String.prefix pfx key).
Qed.

Section CacheHistory.

Lemma cacheGet_unfold (actorId feedbackId : string) (options : Object)
    (st : CaptivateInstance) :
  cacheGet actorId feedbackId options st
  = localFeedbackCache st !! feedbackKey actorId feedbackId options.
Proof. reflexivity. Qed.

Lemma cacheStore_lookup (actorId feedbackId : string) (options : Object) (state : FbState)
    (st : CaptivateInstance) (key : string) :
  localFeedbackCache (cacheStore actorId feedbackId options state st) !! key
  = if decide (feedbackKey actorId feedbackId options = key) then Some state
    else localFeedbackCache st !! key.
Proof. unfold cacheStore. cbn. apply lookup_insert. Qed.

Lemma never_stored_absent (key : string) (history : list CacheOp) (st : CaptivateInstance) :
  localFeedbackCache st !! key = None ->
  Forall (fun op => ~ stores_to key op) history ->
  localFeedbackCache (foldl apply_op st history) !! key = None.
Proof.
  intros Hst Hall. revert st Hst.
  induction Hall as [|op history Hop _ IH]; intros st Hst; [done|].
  cbn [foldl]. apply IH. destruct op as [a f o s | pfx]; cbn [apply_op].
  - rewrite cacheStore_lookup. cbn in Hop. by rewrite decide_False.
  - unfold cacheRemoveKeysWithPrefix. cbn. rewrite remove_prefix_fold, Hst.
    by destruct (String.prefix pfx key).
Qed.

End CacheHistory.

(** C7: a state stored under [(actorId, feedbackId, options)] is what
    [cacheGet] returns for the same triple; and from a fresh instance, as
    long as no store went to the key of a triple, [cacheGet] finds nothing
    for it. *)
Theorem cacheStore_then_cacheGet (actorId feedbackId : string) (options : Object)
    (state : FbState) (st : CaptivateInstance) (c : Config) (history : list CacheOp) :
  cacheGet actorId feedbackId options (cacheStore actorId feedbackId options state st)
  = Some state
  /\ (Forall (fun op => ~ stores_to (feedbackKey actorId feedbackId options) op) history ->
      cacheGet actorId feedbackId options (foldl apply_op (new_instance c) history) = None).
Proof.
  split.
  - rewrite cacheGet_unfold, cacheStore_lookup. by rewrite decide_True.
  - intros Hnone. rewrite cacheGet_unfold. by apply never_stored_absent.
Qed.

Lemma cacheStore_then_cacheGet_witness :
  cacheGet "A" "x.feedback.y" []
    (foldl apply_op (new_instance default_config)
       [OpStore "B" "x.feedback.y" [] ∅; OpRemovePrefix "A"]) = None.
Proof.
  apply (proj2 (cacheStore_then_cacheGet "A" "x.feedback.y" [] ∅
                  (new_instance default_config) default_config
                  [OpStore "B" "x.feedback.y" [] ∅; OpRemovePrefix "A"])).
  repeat constructor; cbn; [vm_compute; discriminate | tauto].
Defined.

(** ** The rebuild loop *)

Section Rebuild.

Lemma elem_of_rev_iff {A : Type} (x : A) (l : list A) : x ∈ rev l <-> x ∈ l.
Proof. rewrite !list_elem_of_In. symmetry. apply in_rev. Qed.

Lemma drain_pending (stack : list CacheMiss) (pending : gmap string string)
    (promises : list Refill) (key : string) :
  fst (drain stack pending promises) !! key
  = if decide (key ∈ map miss_id stack) then None else pending !! key.
Proof.
  revert pending promises. induction stack as [|miss rest IH]; intros pending promises.
  - cbn. rewrite decide_False; [done | apply not_elem_of_nil].
  - cbn [drain map].
    assert (forall promises',
      fst (drain rest (delete (miss_id miss) pending) promises') !! key
      = if decide (key ∈ miss_id miss :: map miss_id rest) then None else pending !! key)
      as Hstep.
    { intros promises'. rewrite IH.
      destruct (decide (key ∈ map miss_id rest)) as [Hin | Hnin].
      - rewrite decide_True; [done | by apply elem_of_cons; right].
      - destruct (decide (key = miss_id miss)) as [-> | Hne].
        + rewrite lookup_delete_eq. rewrite decide_True; [done | apply elem_of_cons; by left].
        + rewrite lookup_delete_ne by done.
          rewrite decide_False; [done|]. intros [? | ?]%elem_of_cons; done. }
    destruct (refill_of miss); apply Hstep.
Qed.

Lemma drain_promises (stack : list CacheMiss) (pending : gmap string string)
    (promises : list Refill) :
  snd (drain stack pending promises) = promises ++ omap refill_of stack.
Proof.
  revert pending promises. induction stack as [|miss rest IH]; intros pending promises.
  - cbn. by rewrite app_nil_r.
  - cbn. destruct (refill_of miss) as [r|]; rewrite IH; [|done].
    by rewrite <- app_assoc.
Qed.

Lemma stopCacheChecker_fields (st : CaptivateInstance) :
  localFeedbackCache (stopCacheChecker st) = localFeedbackCache st
  /\ pendingFeedbackChanges (stopCacheChecker st) = pendingFeedbackChanges st
  /\ cacheMisses (stopCacheChecker st) = cacheMisses st
  /\ images (stopCacheChecker st) = images st
  /\ cacheBuilder (stopCacheChecker st) = None
  /\ allSettledWaits (stopCacheChecker st) = allSettledWaits st
  /\ effects (stopCacheChecker st) = effects st.
Proof. unfold stopCacheChecker. destruct (cacheBuilder st) eqn:E; cbn; by rewrite ?E. Qed.

Lemma rebuild_unfold (st : CaptivateInstance) :
  rebuildFeedbackCache st
  = let st1 := stopCacheChecker st in
    let pending := fst (drain (rev (cacheMisses st)) (pendingFeedbackChanges st) []) in
    let st2 := emit (map QueryFeedbackState (launched st))
                 (set_pendingFeedbackChanges pending (set_cacheMisses [] st1)) in
    if (0 <? length (launched st))%nat
    then set_allSettledWaits (allSettledWaits st ++ [launched st]) st2
    else st2.
Proof.
  unfold rebuildFeedbackCache, launched.
  destruct (stopCacheChecker_fields st) as (_ & Hp & Hm & _ & _ & Hw & _).
  rewrite Hp, Hm.
  pose proof (drain_promises (rev (cacheMisses st)) (pendingFeedbackChanges st) []) as Hd.
  destruct (drain (rev (cacheMisses st)) (pendingFeedbackChanges st) []) as [pending promises].
  cbn [fst snd app] in Hd |- *. subst promises.
  cbn zeta. destruct (0 <? length _)%nat; [|done]. cbn. by rewrite Hw.
Qed.

Lemma rebuild_cache (st : CaptivateInstance) :
  localFeedbackCache (rebuildFeedbackCache st) = localFeedbackCache st.
Proof.
  rewrite rebuild_unfold. cbn zeta.
  destruct (0 <? length (launched st))%nat; cbn; apply stopCacheChecker_fields.
Qed.

Lemma rebuild_misses (st : CaptivateInstance) : cacheMisses (rebuildFeedbackCache st) = [].
Proof. rewrite rebuild_unfold. cbn zeta. by destruct (0 <? length (launched st))%nat. Qed.

Lemma rebuild_builder (st : CaptivateInstance) : cacheBuilder (rebuildFeedbackCache st) = None.
Proof.
  rewrite rebuild_unfold. cbn zeta.
  destruct (0 <? length (launched st))%nat; cbn; apply stopCacheChecker_fields.
Qed.

Lemma rebuild_pending (st : CaptivateInstance) (key : string) :
  pendingFeedbackChanges (rebuildFeedbackCache st) !! key
  = if decide (key ∈ map miss_id (cacheMisses st)) then None
    else pendingFeedbackChanges st !! key.
Proof.
  rewrite rebuild_unfold. cbn zeta.
  transitivity (fst (drain (rev (cacheMisses st)) (pendingFeedbackChanges st) []) !! key).
  { by destruct (0 <? length (launched st))%nat. }
  rewrite drain_pending.
  destruct (decide (key ∈ map miss_id (rev (cacheMisses st)))) as [Hin | Hnin];
    rewrite map_rev in *.
  - rewrite decide_True; [done|]. by apply elem_of_rev_iff.
  - rewrite decide_False; [done|]. intros H. apply Hnin. by apply elem_of_rev_iff.
Qed.

Lemma rebuild_effects (st : CaptivateInstance) :
  effects (rebuildFeedbackCache st)
  = effects st ++ map QueryFeedbackState (launched st).
Proof.
  rewrite rebuild_unfold. cbn zeta.
  destruct (stopCacheChecker_fields st) as (_ & _ & _ & _ & _ & _ & He).
  destruct (0 <? length (launched st))%nat; cbn; by rewrite He.
Qed.

Lemma rebuild_waits (st : CaptivateInstance) :
  allSettledWaits (rebuildFeedbackCache st)
  = allSettledWaits st ++ (if (0 <? length (launched st))%nat then [launched st] else []).
Proof.
  rewrite rebuild_unfold. cbn zeta.
  destruct (stopCacheChecker_fields st) as (_ & _ & _ & _ & _ & Hw & _).
  destruct (0 <? length (launched st))%nat; cbn; [done|]. by rewrite Hw, app_nil_r.
Qed.

Lemma settle_refill_fields (st : CaptivateInstance) (out : Refill * Settlement) :
  pendingFeedbackChanges (settle_refill st out) = pendingFeedbackChanges st
  /\ cacheMisses (settle_refill st out) = cacheMisses st
  /\ allSettledWaits (settle_refill st out) = allSettledWaits st
  /\ effects (settle_refill st out) = effects st.
Proof. unfold settle_refill. by destruct (snd out). Qed.

Lemma settle_all_fields (outs : list (Refill * Settlement)) (st : CaptivateInstance) :
  pendingFeedbackChanges (foldl settle_refill st outs) = pendingFeedbackChanges st
  /\ cacheMisses (foldl settle_refill st outs) = cacheMisses st
  /\ allSettledWaits (foldl settle_refill st outs) = allSettledWaits st
  /\ effects (foldl settle_refill st outs) = effects st.
Proof.
  revert st. induction outs as [|out outs IH]; intros st; [done|].
  cbn [foldl]. destruct (IH (settle_refill st out)) as (-> & -> & -> & ->).
  apply settle_refill_fields.
Qed.

Lemma settle_refill_lookup (st : CaptivateInstance) (r : Refill) (o : Settlement)
    (key : string) :
  localFeedbackCache (settle_refill st (r, o)) !! key
  = match o with
    | Fulfilled reply =>
        if decide (refill_key r = key) then Some reply else localFeedbackCache st !! key
    | _ => localFeedbackCache st !! key
    end.
Proof. unfold settle_refill. destruct o; cbn [snd fst]; [apply cacheStore_lookup | done..]. Qed.

(** Among replies that agree per key, a fulfilled refill's reply is in the
    cache once all have been handled, whatever became of the others. *)
Lemma settle_all_stored (outs : list (Refill * Settlement)) (st : CaptivateInstance)
    (r : Refill) (reply : FbState) :
  (r, Fulfilled reply) ∈ outs \/ localFeedbackCache st !! refill_key r = Some reply ->
  (forall r' reply', (r', Fulfilled reply') ∈ outs -> refill_key r' = refill_key r ->
                     reply' = reply) ->
  localFeedbackCache (foldl settle_refill st outs) !! refill_key r = Some reply.
Proof.
  revert st. induction outs as [|[r1 o1] outs IH]; intros st Hin Hagree.
  - destruct Hin as [Hin | Hst]; [by apply elem_of_nil in Hin | done].
  - cbn [foldl]. apply IH.
    + destruct Hin as [[Heq | Hin]%elem_of_cons | Hst].
      * right. injection Heq as <- <-. rewrite settle_refill_lookup. by rewrite decide_True.
      * by left.
      * right. rewrite settle_refill_lookup. destruct o1 as [reply1| |]; try done.
        destruct (decide (refill_key r1 = refill_key r)) as [Hk | Hk]; [|done].
        f_equal. apply (Hagree r1); [apply elem_of_cons; by left | done].
    + intros r' reply' Hin'. apply Hagree. apply elem_of_cons. by right.
Qed.

Lemma settle_batch_pending (i : nat) (outs : list (Refill * Settlement))
    (st : CaptivateInstance) :
  pendingFeedbackChanges (settle_batch i outs st) = pendingFeedbackChanges st.
Proof.
  unfold settle_batch. destruct (allSettledWaits st !! i); [|done].
  destruct (forallb _ outs); cbn; apply settle_all_fields.
Qed.

Lemma settle_batch_cache (i : nat) (outs : list (Refill * Settlement))
    (st : CaptivateInstance) (batch : list Refill) :
  allSettledWaits st !! i = Some batch ->
  localFeedbackCache (settle_batch i outs st)
  = localFeedbackCache (foldl settle_refill st outs).
Proof.
  unfold settle_batch. intros ->. by destruct (forallb _ outs).
Qed.

Lemma settle_batch_effects (i : nat) (outs : list (Refill * Settlement))
    (st : CaptivateInstance) (batch : list Refill) :
  allSettledWaits st !! i = Some batch ->
  forallb (fun out => is_settled (snd out)) outs = true ->
  effects (settle_batch i outs st) = effects st ++ [CheckFeedbacks].
Proof.
  unfold settle_batch. intros -> ->. cbn.
  by destruct (settle_all_fields outs st) as (_ & _ & _ & ->).
Qed.

Lemma launched_nonempty_wait (st : CaptivateInstance) :
  launched st <> [] ->
  allSettledWaits (rebuildFeedbackCache st) !! length (allSettledWaits st)
  = Some (launched st).
Proof.
  intros Hne. rewrite rebuild_waits.
  destruct (launched st) as [|r rs] eqn:E; [done|]. cbn [length Nat.ltb Nat.leb].
  by rewrite list_lookup_middle.
Qed.

Lemma launched_empty_no_wait (st : CaptivateInstance) :
  launched st = [] ->
  allSettledWaits (rebuildFeedbackCache st) !! length (allSettledWaits st) = None.
Proof.
  intros E. rewrite rebuild_waits, E. cbn. rewrite app_nil_r.
  by apply lookup_ge_None.
Qed.

Lemma launched_elem (st : CaptivateInstance) (miss : CacheMiss) (r : Refill) :
  miss ∈ cacheMisses st -> refill_of miss = Some r -> r ∈ launched st.
Proof.
  intros Hin Hr. unfold launched. apply list_elem_of_omap.
  exists miss. split; [by apply elem_of_rev_iff | done].
Qed.

End Rebuild.

(** C2, as the code has it: the staleness mark of an id is cleared when the
    rebuild loop pops a miss for that id, before the refill is launched and
    whatever its outcome (also when none is launched); the marks of all
    other ids are left as they were. *)
Theorem rebuild_pass_clears_popped_marks (st : CaptivateInstance)
    (outs : list (Refill * Settlement)) (key : string) :
  pendingFeedbackChanges (rebuild_pass outs st) !! key
  = if decide (key ∈ map miss_id (cacheMisses st)) then None
    else pendingFeedbackChanges st !! key.
Proof. unfold rebuild_pass. rewrite settle_batch_pending. apply rebuild_pending. Qed.

(** C2 as stated fails: a mark does not survive a refill that is rejected. *)
Lemma stale_mark_cleared_despite_failed_refill :
  ~ (forall (st : CaptivateInstance) (outs : list (Refill * Settlement))
            (miss : CacheMiss) (r : Refill),
        miss ∈ cacheMisses st -> refill_of miss = Some r ->
        pendingFeedbackChanges st !! miss_id miss = Some "stale" ->
        map fst outs ≡ₚ launched st -> (r, Rejected) ∈ outs ->
        pendingFeedbackChanges (rebuild_pass outs st) !! miss_id miss = Some "stale").
Proof.
  intros H.
  specialize (H sample_instance sample_outs
                (mkMiss "A~x.feedback.on" []) (mkRefill "A" "x.feedback.on" [])).
  unfold rebuild_pass in H. rewrite settle_batch_pending, rebuild_pending in H.
  rewrite decide_True in H by (cbn; apply elem_of_cons; by left).
  assert (@None string = Some "stale") as E; [|discriminate E].
  apply H.
  - cbn. apply elem_of_cons. by left.
  - reflexivity.
  - reflexivity.
  - reflexivity.
  - apply elem_of_cons. right. apply elem_of_cons. by left.
Qed.

(** C4, as the code has it: in a rebuild pass that launches at least one
    refill (the worklist holds a miss whose id reads [actorId~feedbackId]
    with [.feedback.] in the second part), every such miss is queried,
    every fulfilled refill is stored whatever happened to the others (for
    replies that agree per key), and once all launched refills have
    settled [checkFeedbacks] is requested exactly once. *)
Theorem rebuild_pass_settle_and_continue (st : CaptivateInstance)
    (outs : list (Refill * Settlement)) :
  launched st <> [] ->
  map fst outs ≡ₚ launched st ->
  forallb (fun out => is_settled (snd out)) outs = true ->
  (forall miss r, miss ∈ cacheMisses st -> refill_of miss = Some r ->
     QueryFeedbackState r ∈ effects (rebuildFeedbackCache st))
  /\ (forall r reply, (r, Fulfilled reply) ∈ outs ->
        (forall r' reply', (r', Fulfilled reply') ∈ outs ->
           refill_key r' = refill_key r -> reply' = reply) ->
        localFeedbackCache (rebuild_pass outs st) !! refill_key r = Some reply)
  /\ effects (rebuild_pass outs st)
     = effects st ++ map QueryFeedbackState (launched st) ++ [CheckFeedbacks].
Proof.
  intros Hne Hperm Hsettled.
  pose proof (launched_nonempty_wait st Hne) as Hwait.
  split; [|split].
  - intros miss r Hin Hr. rewrite rebuild_effects. apply elem_of_app. right.
    apply list_elem_of_fmap. exists r. split; [done | by eapply launched_elem].
  - intros r reply Hin Hagree. unfold rebuild_pass.
    erewrite settle_batch_cache by exact Hwait.
    apply settle_all_stored; [by left | done].
  - unfold rebuild_pass. erewrite settle_batch_effects by done.
    by rewrite rebuild_effects, <- app_assoc.
Qed.

Lemma rebuild_pass_settle_and_continue_witness :
  effects (rebuild_pass sample_outs sample_instance)
  = effects sample_instance
    ++ map QueryFeedbackState (launched sample_instance) ++ [CheckFeedbacks].
Proof.
  apply (rebuild_pass_settle_and_continue sample_instance sample_outs).
  - discriminate.
  - reflexivity.
  - reflexivity.
Defined.

(** C4 as stated fails on a worklist that is not empty but holds no
    well-shaped id: nothing is launched and [checkFeedbacks] is not
    requested. *)
Lemma no_checkFeedbacks_without_refill :
  ~ (forall (st : CaptivateInstance) (outs : list (Refill * Settlement)),
        cacheMisses st <> [] ->
        map fst outs ≡ₚ launched st ->
        forallb (fun out => is_settled (snd out)) outs = true ->
        effects (rebuild_pass outs st)
        = effects st ++ map QueryFeedbackState (launched st) ++ [CheckFeedbacks]).
Proof.
  intros H.
  specialize (H (set_cacheMisses [mkMiss "noactor" []] (new_instance default_config)) []).
  unfold rebuild_pass, settle_batch in H.
  rewrite launched_empty_no_wait in H by reflexivity.
  rewrite rebuild_effects in H.
  assert (@nil Effect = [CheckFeedbacks]) as E; [|discriminate E].
  apply H; [discriminate | reflexivity | reflexivity].
Qed.

(** ** The feedback callback *)

Section Callback.

Lemma stopCacheChecker_idem (st : CaptivateInstance) :
  stopCacheChecker (stopCacheChecker st) = stopCacheChecker st.
Proof. unfold stopCacheChecker. by destruct (cacheBuilder st) eqn:E; cbn; rewrite ?E. Qed.

Lemma rebuild_after_stop (st : CaptivateInstance) :
  rebuildFeedbackCache (stopCacheChecker st) = rebuildFeedbackCache st.
Proof. unfold rebuildFeedbackCache. by rewrite stopCacheChecker_idem. Qed.

Lemma startCacheChecker_busy (st : CaptivateInstance) :
  cacheMisses st <> [] ->
  startCacheChecker st
  = set_cacheBuilder (Some (mkTimer Timeout 500 RecheckCache)) (rebuildFeedbackCache st).
Proof.
  intros Hne. unfold startCacheChecker.
  destruct (stopCacheChecker_fields st) as (_ & _ & Hm & _).
  rewrite Hm. destruct (cacheMisses st); [done|]. cbn [length Nat.ltb Nat.leb].
  by rewrite rebuild_after_stop.
Qed.

Lemma launched_push (miss : CacheMiss) (st : CaptivateInstance) :
  launched (push_miss miss st)
  = match refill_of miss with
    | Some r => r :: launched st
    | None => launched st
    end.
Proof.
  unfold launched, push_miss. cbn. rewrite rev_app_distr. cbn.
  by destruct (refill_of miss).
Qed.

Lemma push_miss_nonempty (miss : CacheMiss) (st : CaptivateInstance) :
  cacheMisses (push_miss miss st) <> [].
Proof. cbn. by destruct (cacheMisses st). Qed.

(** What the callback leaves behind once it has pushed a miss: the
    immediate rebuild pass empties the worklist, clears the mark of the
    id, queries Captivate, and the checker's timer is armed. *)
Lemma checker_after_push (miss : CacheMiss) (st : CaptivateInstance) :
  let st' := startCacheChecker (push_miss miss st) in
  cacheBuilder st' = Some (mkTimer Timeout 500 RecheckCache)
  /\ cacheMisses st' = []
  /\ localFeedbackCache st' = localFeedbackCache st
  /\ pendingFeedbackChanges st' !! miss_id miss = None
  /\ effects st'
     = effects st ++ map QueryFeedbackState
                       match refill_of miss with
                       | Some r => r :: launched st
                       | None => launched st
                       end.
Proof.
  cbn zeta. rewrite startCacheChecker_busy by apply push_miss_nonempty.
  cbn [cacheBuilder cacheMisses localFeedbackCache pendingFeedbackChanges effects
       set_cacheBuilder].
  repeat split.
  - apply rebuild_misses.
  - by rewrite rebuild_cache.
  - rewrite rebuild_pending. rewrite decide_True; [done|].
    cbn. rewrite map_app. apply elem_of_app. right. cbn. apply elem_of_cons. by left.
  - by rewrite rebuild_effects, launched_push.
Qed.



End Callback.

(** C5: a boolean feedback with empty options and no cache entry answers
    [false]; the callback appends one miss for the composite id to the
    worklist, and the checker it then starts pops that miss at once and
    sends the one query for it. *)
Theorem handleFeedback_boolean_miss (st : CaptivateInstance) :
  localFeedbackCache st !! "A~newblue.automation.js.feedback.x.y" = None ->
  fst (handleFeedback (mkEvent "A~newblue.automation.js.feedback.x.y" [] "boolean") st)
  = ValBool false
  /\ cacheMisses
       (snd (lookup_feedback (mkEvent "A~newblue.automation.js.feedback.x.y" [] "boolean") st))
     = cacheMisses st ++ [mkMiss "A~newblue.automation.js.feedback.x.y" []]
  /\ snd (handleFeedback (mkEvent "A~newblue.automation.js.feedback.x.y" [] "boolean") st)
     = startCacheChecker (push_miss (mkMiss "A~newblue.automation.js.feedback.x.y" []) st)
  /\ effects
       (snd (handleFeedback (mkEvent "A~newblue.automation.js.feedback.x.y" [] "boolean") st))
     = effects st
       ++ QueryFeedbackState (mkRefill "A" "newblue.automation.js.feedback.x.y" [])
          :: map QueryFeedbackState (launched st).
Proof.
  intros Hmiss.
  assert (lookup_feedback (mkEvent "A~newblue.automation.js.feedback.x.y" [] "boolean") st
          = (None, push_miss (mkMiss "A~newblue.automation.js.feedback.x.y" []) st)) as Hl.
  { unfold lookup_feedback.
    change (cacheGetFromFullId _ _ st)
      with (localFeedbackCache st !! "A~newblue.automation.js.feedback.x.y").
    by rewrite Hmiss. }
  unfold handleFeedback. rewrite Hl. cbn [fst snd].
  repeat split.
  apply (checker_after_push (mkMiss "A~newblue.automation.js.feedback.x.y" []) st).
Qed.

Lemma handleFeedback_boolean_miss_witness :
  fst (handleFeedback (mkEvent "A~newblue.automation.js.feedback.x.y" [] "boolean")
         notified_instance)
  = ValBool false.
Proof.
  apply (handleFeedback_boolean_miss notified_instance).
  vm_compute. reflexivity.
Defined.




(** ** The resolver *)

Section ResolverFacts.

(** The running branch leaves [png] as it found it. *)
Lemma png_variants_running_keeps_png (ps : gmap string JValue) (state : FbState) :
  strict_eq_string (playStateOf ps (prop "pngQueryKey" state)) "running" = true ->
  png_variants ps state !! "png" = state !! "png".
Proof.
  intros Hrun. unfold png_variants. rewrite Hrun.
  assert (strict_eq_string (playStateOf ps (prop "pngQueryKey" state)) "paused" = false)
    as Hp.
  { unfold strict_eq_string in *.
    destruct (playStateOf ps (prop "pngQueryKey" state)) as [|[]]; try done.
    apply String.eqb_eq in Hrun as ->. done. }
  rewrite Hp.
  destruct (hasOwnProperty "png_running" state);
    destruct (hasOwnProperty "png_paused" _);
    by rewrite ?lookup_delete_ne, ?lookup_insert_ne by done.
Qed.

(** The variant fields and the query key are gone whatever the play
    state. *)
Lemma hasOwnProperty_false (name : string) (state : FbState) :
  hasOwnProperty name state = false -> state !! name = None.
Proof. unfold hasOwnProperty. by destruct (state !! name). Qed.

End ResolverFacts.

(** C3: on a state with [pngQueryKey] and [png_running], with the layer
    reported as running, the resolver returns a state without [png]: the
    running picture is dropped instead of selected (the paused branch, by
    contrast, does fill [png]). *)
Theorem png_running_not_selected :
  _handleFeedbackOverlayPlayStates (Some running_playStates) running_png_state = Returns ∅
  /\ _handleFeedbackState (Some running_playStates) ∅ FUndefined (fun _ _ => LoadFailed)
       running_png_state = Returns ∅
  /\ _handleFeedbackOverlayPlayStates (Some paused_playStates) paused_png_state
     = Returns {[ "png" := FVal (JStr "iVBORw0KGgo=") ]}.
Proof. repeat split; vm_compute; reflexivity. Qed.

(** C8: a state with no [overlayQueryKey], [pngQueryKey],
    [overlayImageName] or [imageName] comes back from the resolver
    unchanged. *)
Theorem resolved_state_unchanged (playStates : option (gmap string JValue))
    (imgs : gmap string string) (layerImageData : Field)
    (composite : Field -> string -> Composite) (state : FbState) :
  state !! "overlayQueryKey" = None ->
  state !! "pngQueryKey" = None ->
  state !! "overlayImageName" = None ->
  state !! "imageName" = None ->
  _handleFeedbackState playStates imgs layerImageData composite state = Returns state.
Proof.
  intros H1 H2 H3 H4. unfold _handleFeedbackState, prop.
  rewrite H1, H2. cbn. unfold prop. by rewrite H3, H4.
Qed.

Lemma resolved_state_unchanged_witness : plain_resolve sample_state = Returns sample_state.
Proof. apply resolved_state_unchanged; reflexivity. Defined.

(** ** The reconnection watchdog *)

Section Watchdog.

Lemma initQWebChannel_watchdog (st : CaptivateInstance) :
  connectionWatchdog (initQWebChannel st) = connectionWatchdog st.
Proof. unfold initQWebChannel. by destruct (serverUrl (config st)). Qed.

Lemma socket_step_watchdog (st : CaptivateInstance) (e : SocketEvent) :
  connectionWatchdog st = None \/ connectionWatchdog st = Some reconnect_timer ->
  connectionWatchdog (socket_step st e) = None
  \/ connectionWatchdog (socket_step st e) = Some reconnect_timer.
Proof.
  intros Hinv. destruct e; cbn [socket_step].
  - left. unfold on_open. by destruct (connectionWatchdog st) eqn:E.
  - exact Hinv.
  - right. unfold on_close. cbn.
    destruct Hinv as [E | E]; rewrite E; cbn; [done | exact E].
  - unfold fire_connectionWatchdog.
    destruct Hinv as [E | E]; rewrite E; [by left|]. right.
    cbn. by rewrite initQWebChannel_watchdog.
Qed.

(** At most one watchdog is ever live, and it is the five-second one. *)
Lemma watchdog_invariant (c : Config) (events : list SocketEvent) :
  connectionWatchdog (foldl socket_step (new_instance c) events) = None
  \/ connectionWatchdog (foldl socket_step (new_instance c) events) = Some reconnect_timer.
Proof.
  induction events as [|e events IH] using rev_ind; [by left|].
  rewrite foldl_snoc. by apply socket_step_watchdog.
Qed.

End Watchdog.

(** C9, as the code has it: in every state the socket events can lead to,
    a ['close'] event reports [Disconnected] and, when no watchdog is
    armed, arms a repeating five-second timer whose every tick runs
    [initQWebChannel] again (a new socket when the configuration still
    yields an address) and which stays armed; with a watchdog armed
    ['close'] arms no second one; an ['error'] event reports [BadConfig],
    clears host and port (so that, without a discovered address, the next
    attempts open no socket) and does not touch the watchdog; an ['open']
    event disarms it. *)
Theorem watchdog_lifecycle (c : Config) (events : list SocketEvent) :
  let st := foldl socket_step (new_instance c) events in
  (connectionWatchdog st = None ->
   connectionWatchdog (on_close st) = Some reconnect_timer)
  /\ (connectionWatchdog st = Some reconnect_timer ->
      connectionWatchdog (on_close st) = Some reconnect_timer
      /\ fire_connectionWatchdog st = initQWebChannel st
      /\ connectionWatchdog (fire_connectionWatchdog st) = Some reconnect_timer)
  /\ effects (on_close st) = effects st ++ [UpdateStatus Disconnected]
  /\ connectionWatchdog (on_error st) = connectionWatchdog st
  /\ effects (on_error st) = effects st ++ [UpdateStatus BadConfig]
  /\ host (config (on_error st)) = EmptyString
  /\ port (config (on_error st)) = JStr EmptyString
  /\ (bonjour_host (config st) = None -> initQWebChannel (on_error st) = on_error st)
  /\ connectionWatchdog (on_open st) = None
  /\ (connectionWatchdog st = None \/ connectionWatchdog st = Some reconnect_timer).
Proof.
  cbn zeta. set (st := foldl socket_step (new_instance c) events).
  repeat split.
  - intros E. unfold on_close. cbn. by rewrite E.
  - unfold on_close. cbn. by rewrite H.
  - unfold fire_connectionWatchdog. by rewrite H.
  - unfold fire_connectionWatchdog. rewrite H. cbn. by rewrite initQWebChannel_watchdog.
  - unfold on_close. cbn. by destruct (connectionWatchdog st).
  - intros Hb. unfold initQWebChannel, serverUrl. cbn. by rewrite Hb.
  - unfold on_open. by destruct (connectionWatchdog st) eqn:E.
  - apply watchdog_invariant.
Qed.

Lemma watchdog_lifecycle_witness :
  connectionWatchdog
    (on_close (foldl socket_step (new_instance default_config) [SockError]))
  = Some reconnect_timer.
Proof.
  apply (proj1 (watchdog_lifecycle default_config [SockError])). reflexivity.
Defined.

(** C9 as stated fails for the ['error'] event: on its own it arms no
    timer. *)
Lemma error_arms_no_watchdog :
  ~ (forall (st : CaptivateInstance) (e : SocketEvent),
        e = SockError \/ e = SockClose ->
        connectionWatchdog st = None ->
        connectionWatchdog (socket_step st e) = Some reconnect_timer).
Proof.
  intros H.
  specialize (H (new_instance default_config) SockError (or_introl eq_refl) eq_refl).
  discriminate H.
Qed.

(** * Further properties *)

(** ** Composite ids *)

Section CompositeIds.

Lemma append_assoc (s t u : string) : (s +:+ t) +:+ u = s +:+ t +:+ u.
Proof. induction s as [|c s IH]; [done|]. rewrite !append_cons. by f_equal. Qed.

Lemma split_tilde_cons (a rest : string) :
  tilde_free a = true ->
  split_tilde (a +:+ "~" +:+ rest) = a :: split_tilde rest.
Proof.
  induction a as [|c a IH]; intros Hfree; [done|].
  cbn in Hfree. apply andb_true_iff in Hfree as [Hc Ha].
  apply negb_true_iff in Hc.
  change (String c a +:+ "~" +:+ rest) with (String c (a +:+ "~" +:+ rest)).
  cbn [split_tilde]. rewrite Hc, (IH Ha). done.
Qed.

Lemma split_tilde_free (s : string) : tilde_free s = true -> split_tilde s = [s].
Proof.
  induction s as [|c s IH]; intros Hfree; [done|].
  cbn in Hfree. apply andb_true_iff in Hfree as [Hc Hs].
  apply negb_true_iff in Hc. cbn [split_tilde]. by rewrite Hc, (IH Hs).
Qed.

Lemma split2_pair (a f : string) :
  tilde_free a = true -> tilde_free f = true ->
  split2 (join_tilde a f) = (a, Some f).
Proof.
  intros Ha Hf. unfold split2, join_tilde.
  by rewrite (split_tilde_cons a f Ha), (split_tilde_free f Hf).
Qed.

Lemma split2_longer (a f rest : string) :
  tilde_free a = true -> tilde_free f = true ->
  split2 (join_tilde a f +:+ "~" +:+ rest) = (a, Some f).
Proof.
  intros Ha Hf. unfold split2, join_tilde.
  rewrite !append_assoc.
  by rewrite (split_tilde_cons a _ Ha), (split_tilde_cons f rest Hf).
Qed.


End CompositeIds.

(** ** Shape of the keys and invalidation by prefix *)

Section KeyShape.

Lemma prefix_append (s t : string) : String.prefix s (s +:+ t) = true.
Proof.
  induction s as [|c s IH]; [by destruct t|].
  rewrite append_cons. cbn. by destruct (ascii_dec c c).
Qed.

Lemma prefix_refl (s : string) : String.prefix s s = true.
Proof. induction s as [|c s IH]; [done|]. cbn. by destruct (ascii_dec c c). Qed.

Lemma length_append (s t : string) :
  String.length (s +:+ t) = (String.length s + String.length t)%nat.
Proof. induction s as [|c s IH]; [done|]. rewrite append_cons. cbn. by rewrite IH. Qed.

Lemma length_string_of_list_ascii (l : list ascii) :
  String.length (string_of_list_ascii l) = length l.
Proof. induction l as [|c l IH]; [done|]. cbn. by rewrite IH. Qed.

Lemma md5hex_length (s : string) : String.length (MD5.md5hex s) = 32%nat.
Proof.
  unfold MD5.md5hex, MD5.hex, MD5.digest.
  destruct (MD5.blocks _ _ _) as [a b c d].
  rewrite length_string_of_list_ascii.
  rewrite (flat_map_constant_length (c := 2)) by done.
  by rewrite !length_app.
Qed.

Lemma prefix_same_actor (a b x y : string) :
  tilde_free a = true -> tilde_free b = true ->
  String.prefix (a +:+ "~" +:+ x) (b +:+ "~" +:+ y) = true -> a = b.
Proof.
  revert b. induction a as [|c a IH]; intros [|d b] Ha Hb Hp.
  - done.
  - change (String.prefix (String "~" x) (String d (b +:+ "~" +:+ y)) = true) in Hp.
    cbn [String.prefix] in Hp. cbn in Hb.
    destruct (ascii_dec "~" d) as [<- | _]; [done | discriminate Hp].
  - change (String.prefix (String c (a +:+ "~" +:+ x)) (String "~" y) = true) in Hp.
    cbn [String.prefix] in Hp. cbn in Ha.
    destruct (ascii_dec c "~") as [-> | _]; [done | discriminate Hp].
  - change (String.prefix (String c (a +:+ "~" +:+ x)) (String d (b +:+ "~" +:+ y)) = true)
      in Hp.
    cbn [String.prefix] in Hp. cbn in Ha, Hb.
    apply andb_true_iff in Ha as [_ Ha]. apply andb_true_iff in Hb as [_ Hb].
    destruct (ascii_dec c d) as [-> | _]; [|discriminate Hp].
    f_equal. by apply IH.
Qed.

Lemma prefix_trans_append (p s t : string) :
  String.prefix p s = true -> String.prefix p (s +:+ t) = true.
Proof.
  revert s. induction p as [|c p IH]; intros [|d s] Hp; try done.
  - by destruct t.
  - rewrite append_cons. cbn in *. destruct (ascii_dec c d); [by apply IH | done].
Qed.

Lemma prefix_feedbackKey (p a f : string) (o : Object) :
  String.prefix p (join_tilde a f) = true -> String.prefix p (feedbackKey a f o) = true.
Proof.
  intros Hp. unfold feedbackKey, makeCacheKeyUsingOptions.
  destruct (0 <? length o)%nat; [|done]. by apply prefix_trans_append.
Qed.

Lemma removed_lookup (pfx : string) (st : CaptivateInstance) (key : string) :
  localFeedbackCache (cacheRemoveKeysWithPrefix pfx st) !! key
  = if String.prefix pfx key then None else localFeedbackCache st !! key.
Proof.
  unfold cacheRemoveKeysWithPrefix. cbn. rewrite remove_prefix_fold.
  by destruct (localFeedbackCache st !! key), (String.prefix pfx key).
Qed.

End KeyShape.

(** X1: whatever the composite id looks like (no tilde, one, several), a
    state stored through [cacheStoreFromFullId] is what
    [cacheGetFromFullId] returns for the same id and options, and a second
    store under the same id and options replaces the first. *)
Theorem fullId_store_get_roundtrip (id : string) (options : Object)
    (state1 state2 : FbState) (st : CaptivateInstance) :
  cacheGetFromFullId id options (cacheStoreFromFullId id options state1 st) = Some state1
  /\ cacheGetFromFullId id options
       (cacheStoreFromFullId id options state2
          (cacheStoreFromFullId id options state1 st)) = Some state2.
Proof.
  unfold cacheGetFromFullId, cacheStoreFromFullId.
  destruct (split2 id) as [aid fid].
  rewrite !cacheGet_unfold, !cacheStore_lookup. by rewrite !decide_True.
Qed.

(** X2: only the first two tilde-separated pieces of a composite id count:
    for an actor id and a feedback id without tildes, the full-id access
    paths agree with the pair ones, and an id with further pieces reads
    and writes the entry of its first two. *)
Theorem fullId_uses_first_two_pieces (a f rest : string) (options : Object)
    (state : FbState) (st : CaptivateInstance) :
  tilde_free a = true -> tilde_free f = true ->
  cacheGetFromFullId (join_tilde a f) options st = cacheGet a f options st
  /\ cacheStoreFromFullId (join_tilde a f) options state st
     = cacheStore a f options state st
  /\ cacheGetFromFullId (join_tilde a f +:+ "~" +:+ rest) options st
     = cacheGet a f options st
  /\ cacheStoreFromFullId (join_tilde a f +:+ "~" +:+ rest) options state st
     = cacheStore a f options state st.
Proof.
  intros Ha Hf. unfold cacheGetFromFullId, cacheStoreFromFullId.
  by rewrite (split2_pair a f Ha Hf), (split2_longer a f rest Ha Hf).
Qed.

Lemma fullId_uses_first_two_pieces_witness :
  cacheGetFromFullId (join_tilde "A" "x.feedback.on" +:+ "~" +:+ "extra") []
    notified_instance
  = cacheGet "A" "x.feedback.on" [] notified_instance.
Proof.
  apply (fullId_uses_first_two_pieces "A" "x.feedback.on" "extra" [] sample_state
           notified_instance); reflexivity.
Defined.

Lemma hexchar_hex_digit (n : Z) : is_hex_digit (MD5.hexchar n) = true.
Proof.
  unfold MD5.hexchar.
  destruct (nth_in_or_default (Z.to_nat n)
              (list_ascii_of_string "0123456789abcdef") "0"%char) as [Hin | ->];
    [|reflexivity].
  set (c := nth _ _ _) in *. clearbody c.
  cbn [list_ascii_of_string In] in Hin.
  repeat (destruct Hin as [<- | Hin]; [reflexivity|]). destruct Hin.
Qed.

Lemma hex_digits (bs : list Z) : string_forall is_hex_digit (MD5.hex bs) = true.
Proof.
  unfold MD5.hex. induction bs as [|b bs IH]; [done|].
  cbn [flat_map app string_of_list_ascii string_forall].
  by rewrite !hexchar_hex_digit, IH.
Qed.

(** X3: a FeedbackKey starts with [actorId~feedbackId]; with no option it
    is just that, otherwise a plus sign and 32 hex digits follow. *)
Theorem feedbackKey_shape (a f : string) (options : Object) :
  String.prefix (join_tilde a f) (feedbackKey a f options) = true
  /\ match options with
     | [] => feedbackKey a f options = join_tilde a f
     | _ :: _ =>
         exists digits,
           feedbackKey a f options = join_tilde a f +:+ "+" +:+ digits
           /\ String.length digits = 32%nat
           /\ string_forall is_hex_digit digits = true
     end.
Proof.
  split.
  - apply prefix_feedbackKey, prefix_refl.
  - unfold feedbackKey, makeCacheKeyUsingOptions.
    destruct options as [|o options]; cbn [length Nat.ltb Nat.leb]; [done|].
    eexists. split; [done|]. split; [apply md5hex_length|].
    unfold MD5.md5hex. apply hex_digits.
Qed.

(** X4: removing by the prefix [actorId~] leaves no entry of that actor,
    removing by [actorId~feedbackId] none of that feedback, whatever the
    options; the empty prefix empties the cache; and for actor ids without
    tildes the entries of every other actor survive the removal. *)
Theorem invalidate_actor_prefix (a b f : string) (options : Object)
    (st : CaptivateInstance) :
  cacheGet a f options (cacheRemoveKeysWithPrefix (a +:+ "~") st) = None
  /\ cacheGet a f options (cacheRemoveKeysWithPrefix (join_tilde a f) st) = None
  /\ localFeedbackCache (cacheRemoveKeysWithPrefix EmptyString st) = ∅
  /\ (tilde_free a = true -> tilde_free b = true -> a <> b ->
      cacheGet b f options (cacheRemoveKeysWithPrefix (a +:+ "~") st)
      = cacheGet b f options st).
Proof.
  repeat split.
  - rewrite cacheGet_unfold, removed_lookup.
    rewrite prefix_feedbackKey; [done|]. unfold join_tilde.
    rewrite <- append_assoc. apply prefix_append.
  - rewrite cacheGet_unfold, removed_lookup.
    by rewrite prefix_feedbackKey by apply prefix_refl.
  - apply map_eq. intros key. rewrite removed_lookup, lookup_empty. by destruct key.
  - intros Ha Hb Hne. rewrite !cacheGet_unfold, removed_lookup.
    destruct (String.prefix (a +:+ "~") (feedbackKey b f options)) eqn:Hp; [|done].
    exfalso. apply Hne.
    unfold feedbackKey, makeCacheKeyUsingOptions, join_tilde in Hp.
    destruct (0 <? length options)%nat.
    + rewrite append_assoc in Hp.
      replace (a +:+ "~") with (a +:+ "~" +:+ EmptyString) in Hp
        by (clear; induction a as [|c a IH]; [done | by rewrite append_cons, IH]).
      rewrite append_assoc in Hp. by eapply prefix_same_actor.
    + replace (a +:+ "~") with (a +:+ "~" +:+ EmptyString) in Hp
        by (clear; induction a as [|c a IH]; [done | by rewrite append_cons, IH]).
      by eapply prefix_same_actor.
Qed.

Lemma invalidate_actor_prefix_witness :
  cacheGet "A" "x.feedback.on" [] (cacheRemoveKeysWithPrefix ("B" +:+ "~") notified_instance)
  = cacheGet "A" "x.feedback.on" [] notified_instance.
Proof.
  apply (invalidate_actor_prefix "B" "A" "x.feedback.on" [] notified_instance);
    reflexivity || discriminate.
Defined.

(** ** The callback and the checker, beyond the claims *)

Section CallbackFacts.

Lemma rebuild_idle (st : CaptivateInstance) :
  cacheMisses st = [] -> cacheBuilder st = None -> rebuildFeedbackCache st = st.
Proof.
  destruct st as [cache pending misses imgs builder dog cfg waits effs]. cbn.
  intros -> ->. unfold rebuildFeedbackCache, stopCacheChecker, emit. cbn.
  by rewrite app_nil_r.
Qed.

Lemma startCacheChecker_idle (st : CaptivateInstance) :
  cacheMisses st = [] -> startCacheChecker st = stopCacheChecker st.
Proof.
  intros Hm. unfold startCacheChecker.
  destruct (stopCacheChecker_fields st) as (_ & _ & -> & _). by rewrite Hm.
Qed.

Lemma launched_idle (st : CaptivateInstance) : cacheMisses st = [] -> launched st = [].
Proof. unfold launched. by intros ->. Qed.

(** What [startCacheChecker] leaves behind, in every case. *)
Lemma startCacheChecker_fields (st : CaptivateInstance) :
  cacheMisses (startCacheChecker st) = []
  /\ localFeedbackCache (startCacheChecker st) = localFeedbackCache st
  /\ effects (startCacheChecker st) = effects st ++ map QueryFeedbackState (launched st)
  /\ cacheBuilder (startCacheChecker st)
     = match cacheMisses st with [] => None | _ :: _ => Some checker_timer end.
Proof.
  destruct (cacheMisses st) as [|m ms] eqn:Hm.
  - rewrite startCacheChecker_idle by done.
    destruct (stopCacheChecker_fields st) as (-> & _ & -> & _ & -> & _ & ->).
    rewrite launched_idle by done. by rewrite app_nil_r.
  - rewrite startCacheChecker_busy by (by rewrite Hm).
    cbn [cacheMisses localFeedbackCache effects cacheBuilder set_cacheBuilder].
    by rewrite rebuild_misses, rebuild_cache, rebuild_effects.
Qed.


Lemma lookup_feedback_result (event : FeedbackEvent) (st : CaptivateInstance) :
  fst (lookup_feedback event st)
  = embed_image (images st) <$> cacheGetFromFullId (ev_feedbackId event) (ev_options event) st.
Proof.
  unfold lookup_feedback.
  destruct (cacheGetFromFullId _ _ st); [|done]. cbn.
  destruct (pendingFeedbackChanges st !! ev_feedbackId event) as [mark|]; [|done].
  by destruct (truthy_string mark).
Qed.

Lemma handleFeedback_unfold (event : FeedbackEvent) (st : CaptivateInstance) :
  handleFeedback event st
  = (feedback_value (ev_type event) (fst (lookup_feedback event st)),
     startCacheChecker (snd (lookup_feedback event st))).
Proof. unfold handleFeedback. by destruct (lookup_feedback event st). Qed.

Lemma embed_image_no_imageName (imgs : gmap string string) (state : FbState) :
  hasOwnProperty "imageName" (embed_image imgs state) = false.
Proof.
  unfold embed_image. destruct (hasOwnProperty "imageName" state) eqn:E; [|done].
  unfold hasOwnProperty.
  destruct (imgs !! _); by rewrite ?lookup_insert_ne, lookup_delete_eq by done.
Qed.

End CallbackFacts.





(** X7: a state the callback returns never carries [imageName]: the copy
    it hands out of a plain cached state has the name replaced by the
    picture when the image set knows it and simply removed when it does
    not; every other field but [png64] is the cached one. *)
Theorem handleFeedback_embeds_image (event : FeedbackEvent) (st : CaptivateInstance)
    (state : FbState) :
  fst (handleFeedback event st) = ValState state ->
  hasOwnProperty "imageName" state = false
  /\ exists cached,
       cacheGetFromFullId (ev_feedbackId event) (ev_options event) st = Some cached
       /\ (plain_state cached = true ->
           (forall name, name <> "imageName" -> name <> "png64" ->
              state !! name = cached !! name)
           /\ state !! "png64"
              = match cached !! "imageName" with
                | Some n =>
                    match images st !! toString_field n with
                    | Some data => Some (FVal (JStr data))
                    | None => cached !! "png64"
                    end
                | None => cached !! "png64"
                end).
Proof.
  rewrite handleFeedback_unfold. cbn [fst]. rewrite lookup_feedback_result.
  unfold feedback_value.
  destruct (String.eqb (ev_type event) "boolean"); [discriminate|].
  destruct (cacheGetFromFullId _ _ st) as [cached|]; [|discriminate].
  cbn. intros [= <-]. split; [apply embed_image_no_imageName|].
  exists cached. split; [done|]. intros _.
  unfold embed_image, hasOwnProperty, prop.
  destruct (cached !! "imageName") as [n|] eqn:Hn; [|done]. cbn.
  destruct (images st !! toString_field n) as [data|].
  - split; [|by rewrite lookup_insert_eq].
    intros name H1 H2. by rewrite lookup_insert_ne, lookup_delete_ne.
  - split; [|by rewrite lookup_delete_ne].
    intros name H1 H2. by rewrite lookup_delete_ne.
Qed.

Lemma handleFeedback_embeds_image_witness :
  hasOwnProperty "imageName" sample_state = false.
Proof.
  apply (handleFeedback_embeds_image (mkEvent "A~x.feedback.on" [] "advanced")
           notified_instance sample_state).
  reflexivity.
Defined.

(** X8: when the checker's timer fires on an empty worklist the checker
    stops: the timer is cleared and nothing is launched; on a worklist
    that is not empty (misses added by [primeFeedbackState]) it runs a
    rebuild pass and re-arms the 500 ms timer.  Without new misses a
    second firing always finds the checker stopped or stops it. *)
Theorem checker_tick (st : CaptivateInstance) (t : Timer) :
  cacheBuilder st = Some t ->
  timer_task t = RecheckCache ->
  (cacheMisses st = [] ->
   fire_cacheBuilder st = set_cacheBuilder None st)
  /\ (cacheMisses st <> [] ->
      fire_cacheBuilder st = set_cacheBuilder (Some checker_timer) (rebuildFeedbackCache st))
  /\ cacheMisses (fire_cacheBuilder st) = []
  /\ cacheBuilder (fire_cacheBuilder (fire_cacheBuilder st)) = None.
Proof.
  intros Ht Htask.
  assert (fire_cacheBuilder st = startCacheChecker st) as Hfire.
  { unfold fire_cacheBuilder. by rewrite Ht, Htask. }
  rewrite Hfire.
  destruct (startCacheChecker_fields st) as (Hm & _ & _ & Hb).
  repeat split.
  - intros Hidle. rewrite startCacheChecker_idle by done.
    unfold stopCacheChecker. by rewrite Ht.
  - intros Hbusy. by apply startCacheChecker_busy.
  - done.
  - unfold fire_cacheBuilder at 1. rewrite Hb.
    destruct (cacheMisses st); [by rewrite Hb|].
    cbn [timer_task checker_timer run_task].
    destruct (startCacheChecker_fields (startCacheChecker st)) as (_ & _ & _ & ->).
    by rewrite Hm.
Qed.

Lemma checker_tick_witness :
  cacheBuilder
    (fire_cacheBuilder
       (fire_cacheBuilder
          (snd (handleFeedback (mkEvent "A~x.feedback.on" [] "boolean") notified_instance))))
  = None.
Proof.
  apply (checker_tick
           (snd (handleFeedback (mkEvent "A~x.feedback.on" [] "boolean") notified_instance))
           checker_timer); reflexivity.
Defined.

(** X9: a rebuild pass over an empty worklist only stops the checker, so
    running the pass twice in a row is the same as running it once: the
    second pass queries nothing and clears no mark. *)
Theorem rebuildFeedbackCache_idempotent (st : CaptivateInstance) :
  rebuildFeedbackCache (rebuildFeedbackCache st) = rebuildFeedbackCache st
  /\ (cacheMisses st = [] -> rebuildFeedbackCache st = stopCacheChecker st).
Proof.
  split.
  - apply rebuild_idle; [apply rebuild_misses | apply rebuild_builder].
  - intros Hm. rewrite <- rebuild_after_stop. apply rebuild_idle.
    + by destruct (stopCacheChecker_fields st) as (_ & _ & -> & _).
    + by destruct (stopCacheChecker_fields st) as (_ & _ & _ & _ & -> & _).
Qed.

Lemma rebuildFeedbackCache_idempotent_witness :
  rebuildFeedbackCache (new_instance default_config)
  = stopCacheChecker (new_instance default_config).
Proof.
  apply (proj2 (rebuildFeedbackCache_idempotent (new_instance default_config))).
  reflexivity.
Defined.

(** X10: while one launched refill stays unsettled, the pass never asks
    for the re-evaluation of the feedbacks and keeps waiting, yet the
    replies of the refills that were fulfilled are in the cache. *)
Theorem unsettled_refill_blocks_checkFeedbacks (i : nat)
    (outs : list (Refill * Settlement)) (st : CaptivateInstance) (batch : list Refill)
    (r0 : Refill) :
  allSettledWaits st !! i = Some batch ->
  (r0, Pending) ∈ outs ->
  effects (settle_batch i outs st) = effects st
  /\ allSettledWaits (settle_batch i outs st) = allSettledWaits st
  /\ (forall r reply, (r, Fulfilled reply) ∈ outs ->
        (forall r' reply', (r', Fulfilled reply') ∈ outs ->
           refill_key r' = refill_key r -> reply' = reply) ->
        localFeedbackCache (settle_batch i outs st) !! refill_key r = Some reply).
Proof.
  intros Hwait Hpending.
  assert (forallb (fun out => is_settled (snd out)) outs = false) as Hno.
  { apply not_true_is_false. intros Hall.
    rewrite forallb_forall in Hall.
    apply list_elem_of_In, Hall in Hpending. discriminate Hpending. }
  unfold settle_batch. rewrite Hwait, Hno.
  destruct (settle_all_fields outs st) as (_ & _ & -> & ->).
  repeat split. intros r reply Hin Hagree. apply settle_all_stored; [by left | done].
Qed.

Lemma unsettled_refill_blocks_checkFeedbacks_witness :
  effects
    (settle_batch 0
       [ (mkRefill "B" "x.feedback.off" [("layer", JNum 2)], Fulfilled sample_state);
         (mkRefill "A" "x.feedback.on" [], queryFeedbackDetails plain_resolve NoReply) ]
       (rebuildFeedbackCache sample_instance))
  = effects (rebuildFeedbackCache sample_instance).
Proof.
  apply (unsettled_refill_blocks_checkFeedbacks 0 _ (rebuildFeedbackCache sample_instance)
           (launched sample_instance) (mkRefill "A" "x.feedback.on" [])).
  - reflexivity.
  - apply elem_of_cons. right. apply elem_of_cons. by left.
Defined.

(** ** The feedback-change notification *)

Section Notification.

Lemma notification_unfold (resolve : FbState -> Outcome FbState) (a f : string)
    (options : Object) (state state' : FbState) (st : CaptivateInstance) :
  resolve state = Returns state' ->
  handleFeedbackChangeEvent resolve a f options state st
  = checkFeedbacks
      (set_pendingFeedbackChanges
         (<[join_tilde a f := "stale"]> (pendingFeedbackChanges st))
         (cacheStore a f options state' st)).
Proof. unfold handleFeedbackChangeEvent. by intros ->. Qed.


End Notification.

(** X11: a feedback-change notification whose state resolves stores the
    resolved state under the key of [(actorId, feedbackId, options)],
    marks [actorId~feedbackId] stale, asks once for the re-evaluation of
    the feedbacks and touches neither the worklist nor the timers, other
    cache entries or other marks; when the resolver throws, nothing
    changes at all. *)
Theorem feedback_change_notification (resolve : FbState -> Outcome FbState)
    (a f : string) (options : Object) (state : FbState) (st : CaptivateInstance) :
  match resolve state with
  | Returns state' =>
      let st' := handleFeedbackChangeEvent resolve a f options state st in
      cacheGet a f options st' = Some state'
      /\ pendingFeedbackChanges st' !! join_tilde a f = Some "stale"
      /\ effects st' = effects st ++ [CheckFeedbacks]
      /\ cacheMisses st' = cacheMisses st
      /\ cacheBuilder st' = cacheBuilder st
      /\ (forall key, key <> feedbackKey a f options ->
            localFeedbackCache st' !! key = localFeedbackCache st !! key)
      /\ (forall id, id <> join_tilde a f ->
            pendingFeedbackChanges st' !! id = pendingFeedbackChanges st !! id)
  | Throws => handleFeedbackChangeEvent resolve a f options state st = st
  end.
Proof.
  destruct (resolve state) as [state'|] eqn:Hres.
  - cbn zeta. rewrite (notification_unfold _ _ _ _ _ _ _ Hres).
    cbn [cacheGet localFeedbackCache pendingFeedbackChanges effects cacheMisses cacheBuilder
         checkFeedbacks emit set_pendingFeedbackChanges].
    repeat split.
    + rewrite cacheGet_unfold. cbn [localFeedbackCache checkFeedbacks emit
                                     set_pendingFeedbackChanges].
      rewrite cacheStore_lookup. by rewrite decide_True.
    + apply lookup_insert_eq.
    + intros key Hne. rewrite cacheStore_lookup. by rewrite decide_False.
    + intros id Hne. by rewrite lookup_insert_ne.
  - unfold handleFeedbackChangeEvent. by rewrite Hres.
Qed.

Section NotificationThenCallback.

Lemma truthy_string_nonempty (s : string) : s <> EmptyString -> truthy_string s = true.
Proof. by destruct s. Qed.


End NotificationThenCallback.



(** ** The resolver, beyond the claims *)

Section ResolverMore.
Variable playStates : option (gmap string JValue).
Variable imgs : gmap string string.
Variable layerImageData : Field.
Variable composite : Field -> string -> Composite.

Let resolve := _handleFeedbackState playStates imgs layerImageData composite.
Let playStatesStage := _handleFeedbackOverlayPlayStates playStates.
Let imageStage := _handleFeedbackOverlayImage imgs layerImageData composite.

Lemma truthy_owned (name : string) (state : FbState) :
  truthy_field (prop name state) = true -> hasOwnProperty name state = true.
Proof. unfold prop, hasOwnProperty. by destruct (state !! name). Qed.

Lemma owned_lookup (name : string) (state : FbState) :
  hasOwnProperty name state = true -> exists v, state !! name = Some v.
Proof. unfold hasOwnProperty. destruct (state !! name); [eauto | done]. Qed.

Lemma overlay_variants_lookup (ps : gmap string JValue) (state : FbState) (name : string) :
  name <> "overlayImageName" -> name <> "overlayImageName_running" ->
  name <> "overlayImageName_paused" -> name <> "overlayQueryKey" ->
  overlay_variants ps state !! name = state !! name.
Proof.
  intros H1%not_eq_sym H2%not_eq_sym H3%not_eq_sym H4%not_eq_sym. unfold overlay_variants.
  set (s := playStateOf ps (prop "overlayQueryKey" state)).
  destruct (strict_eq_string s "running"), (strict_eq_string s "paused"),
    (hasOwnProperty "overlayImageName_running" state);
    match goal with
    | |- context [hasOwnProperty "overlayImageName_paused" ?m] =>
        destruct (hasOwnProperty "overlayImageName_paused" m)
    end;
    by repeat ((rewrite lookup_delete_ne by done) || (rewrite lookup_insert_ne by done)).
Qed.

Lemma png_variants_lookup (ps : gmap string JValue) (state : FbState) (name : string) :
  name <> "png" -> name <> "png_running" -> name <> "png_paused" ->
  name <> "pngQueryKey" ->
  png_variants ps state !! name = state !! name.
Proof.
  intros H1%not_eq_sym H2%not_eq_sym H3%not_eq_sym H4%not_eq_sym. unfold png_variants.
  set (s := playStateOf ps (prop "pngQueryKey" state)).
  destruct (strict_eq_string s "running"), (strict_eq_string s "paused"),
    (hasOwnProperty "png_running" state);
    match goal with
    | |- context [hasOwnProperty "png_paused" ?m] =>
        destruct (hasOwnProperty "png_paused" m)
    end;
    by repeat ((rewrite lookup_delete_ne by done) || (rewrite lookup_insert_ne by done)).
Qed.

Lemma overlay_variants_key_gone (ps : gmap string JValue) (state : FbState) :
  overlay_variants ps state !! "overlayQueryKey" = None.
Proof. unfold overlay_variants. apply lookup_delete_eq. Qed.

Lemma png_variants_key_gone (ps : gmap string JValue) (state : FbState) :
  png_variants ps state !! "pngQueryKey" = None.
Proof. unfold png_variants. apply lookup_delete_eq. Qed.

(** After the play-state stage no query key is left, and [imageName] is as
    before. *)
Lemma playStatesStage_post (state state1 : FbState) :
  playStatesStage state = Returns state1 ->
  state1 !! "overlayQueryKey" = None
  /\ state1 !! "pngQueryKey" = None
  /\ state1 !! "imageName" = state !! "imageName".
Proof.
  unfold playStatesStage, _handleFeedbackOverlayPlayStates.
  destruct (hasOwnProperty "overlayQueryKey" state) eqn:Ho.
  - destruct playStates as [ps|]; [|done]. cbn.
    destruct (hasOwnProperty "pngQueryKey" (overlay_variants ps state)) eqn:Hp.
    + intros [= <-]. repeat split.
      * by rewrite png_variants_lookup, overlay_variants_key_gone.
      * apply png_variants_key_gone.
      * by rewrite png_variants_lookup, overlay_variants_lookup.
    + intros [= <-]. repeat split.
      * apply overlay_variants_key_gone.
      * by apply hasOwnProperty_false.
      * by rewrite overlay_variants_lookup.
  - cbn. destruct (hasOwnProperty "pngQueryKey" state) eqn:Hp.
    + destruct playStates as [ps|]; [|done]. intros [= <-]. repeat split.
      * rewrite png_variants_lookup by done. by apply hasOwnProperty_false.
      * apply png_variants_key_gone.
      * by rewrite png_variants_lookup.
    + intros [= <-]. repeat split; by apply hasOwnProperty_false.
Qed.

(** The image stage throws only when the compositing step fails on the
    state's base picture. *)
Lemma imageStage_returns (state : FbState) :
  (forall overlay, composite (prop "png64" state) overlay <> EncodeFailed) ->
  exists state', imageStage state = Returns state'.
Proof.
  intros Henc. unfold imageStage, _handleFeedbackOverlayImage.
  destruct (hasOwnProperty "overlayImageName" state).
  - destruct (imgs !! _) as [data|]; [|by eauto].
    destruct (negb (truthy_string data)); [by eauto|].
    destruct (hasOwnProperty "png64" _); [|by eauto].
    assert (prop "png64" (delete "overlayImageName" state) = prop "png64" state) as ->.
    { unfold prop. by rewrite lookup_delete_ne. }
    specialize (Henc data).
    destruct (composite _ data); by eauto.
  - destruct (hasOwnProperty "imageName" state); by eauto.
Qed.

(** The play-state stage leaves the base picture alone. *)
Lemma playStatesStage_png64 (state state1 : FbState) :
  playStatesStage state = Returns state1 -> state1 !! "png64" = state !! "png64".
Proof.
  unfold playStatesStage, _handleFeedbackOverlayPlayStates.
  destruct (hasOwnProperty "overlayQueryKey" state).
  - destruct playStates as [ps|]; [|done]. cbn.
    destruct (hasOwnProperty "pngQueryKey" (overlay_variants ps state)).
    + intros [= <-]. by rewrite png_variants_lookup, overlay_variants_lookup.
    + intros [= <-]. by rewrite overlay_variants_lookup.
  - cbn. destruct (hasOwnProperty "pngQueryKey" state).
    + destruct playStates as [ps|]; [|done]. intros [= <-].
      by rewrite png_variants_lookup.
    + by intros [= <-].
Qed.

(** What the image stage may have changed: [png64], and the name it
    consumed. *)
Lemma imageStage_post (state state' : FbState) :
  imageStage state = Returns state' ->
  state' !! "overlayQueryKey" = state !! "overlayQueryKey"
  /\ state' !! "pngQueryKey" = state !! "pngQueryKey"
  /\ state' !! "overlayImageName" = None
  /\ (hasOwnProperty "overlayImageName" state = true ->
      state' !! "imageName" = state !! "imageName")
  /\ (hasOwnProperty "overlayImageName" state = false -> state' !! "imageName" = None).
Proof.
  unfold imageStage, _handleFeedbackOverlayImage.
  destruct (hasOwnProperty "overlayImageName" state) eqn:Ho.
  - assert (forall s, s = delete "overlayImageName" state \/
                      (exists v, s = <["png64" := v]> (delete "overlayImageName" state)) ->
              s !! "overlayQueryKey" = state !! "overlayQueryKey"
              /\ s !! "pngQueryKey" = state !! "pngQueryKey"
              /\ s !! "overlayImageName" = None
              /\ (true = true -> s !! "imageName" = state !! "imageName")
              /\ (true = false -> s !! "imageName" = None)) as Hshape.
    { intros s [-> | [v ->]]; repeat split; try done;
        by rewrite ?lookup_insert_ne, ?lookup_delete_ne, ?lookup_delete_eq by done. }
    destruct (imgs !! _) as [data|]; [|intros [= <-]; apply Hshape; by left].
    destruct (negb (truthy_string data)); [intros [= <-]; apply Hshape; by left|].
    destruct (hasOwnProperty "png64" _).
    + destruct (composite _ data); intros [= <-]; apply Hshape; eauto.
    + intros [= <-]. apply Hshape. eauto.
  - pose proof (hasOwnProperty_false _ _ Ho) as Hno.
    destruct (hasOwnProperty "imageName" state) eqn:Hi; intros [= <-].
    + split; [by rewrite lookup_delete_ne, lookup_insert_ne|].
      split; [by rewrite lookup_delete_ne, lookup_insert_ne|].
      split; [by rewrite lookup_delete_ne, lookup_insert_ne|].
      split; [done|]. intros _. apply lookup_delete_eq.
    + split; [done|]. split; [done|]. split; [done|]. split; [done|].
      intros _. by apply hasOwnProperty_false.
Qed.

Lemma resolve_falsy_unchanged (state : FbState) :
  truthy_field (prop "overlayQueryKey" state) = false ->
  truthy_field (prop "pngQueryKey" state) = false ->
  truthy_field (prop "overlayImageName" state) = false ->
  truthy_field (prop "imageName" state) = false ->
  resolve state = Returns state.
Proof.
  intros H1 H2 H3 H4. unfold resolve, _handleFeedbackState.
  rewrite H1, H2. cbn. by rewrite H3, H4.
Qed.

Lemma prop_lookup_eq (name : string) (s1 s2 : FbState) :
  s1 !! name = s2 !! name -> prop name s1 = prop name s2.
Proof. unfold prop. by intros ->. Qed.

Lemma prop_absent (name : string) (s : FbState) :
  s !! name = None -> truthy_field (prop name s) = false.
Proof. unfold prop. by intros ->. Qed.

Lemma resolve_idempotent (state state' : FbState) :
  truthy_field (prop "imageName" state) = false ->
  resolve state = Returns state' ->
  resolve state' = Returns state'.
Proof.
  intros Himg. unfold resolve at 1, _handleFeedbackState.
  destruct (truthy_field (prop "overlayQueryKey" state)
            || truthy_field (prop "pngQueryKey" state)) eqn:Hguard.
  - fold playStatesStage. destruct (playStatesStage state) as [state1|] eqn:H1; [|done].
    cbn. apply playStatesStage_post in H1 as (Ho & Hp & Hi).
    rewrite (prop_lookup_eq "imageName" state1 state Hi), Himg, orb_false_r.
    destruct (truthy_field (prop "overlayImageName" state1)) eqn:Hoin.
    + fold imageStage. intros H2. apply imageStage_post in H2 as (Ho2 & Hp2 & Hn2 & Hk & _).
      specialize (Hk (truthy_owned _ _ Hoin)).
      apply resolve_falsy_unchanged.
      * apply prop_absent. by rewrite Ho2.
      * apply prop_absent. by rewrite Hp2.
      * by apply prop_absent.
      * rewrite (prop_lookup_eq "imageName" state' state); [done|]. by rewrite Hk.
    + intros [= <-]. apply resolve_falsy_unchanged; try by apply prop_absent.
      * done.
      * by rewrite (prop_lookup_eq "imageName" state1 state Hi).
  - apply orb_false_iff in Hguard as [Hq1 Hq2]. cbn.
    rewrite Himg, orb_false_r.
    destruct (truthy_field (prop "overlayImageName" state)) eqn:Hoin.
    + fold imageStage. intros H2. apply imageStage_post in H2 as (Ho2 & Hp2 & Hn2 & Hk & _).
      specialize (Hk (truthy_owned _ _ Hoin)).
      apply resolve_falsy_unchanged.
      * by rewrite (prop_lookup_eq "overlayQueryKey" state' state).
      * by rewrite (prop_lookup_eq "pngQueryKey" state' state).
      * by apply prop_absent.
      * by rewrite (prop_lookup_eq "imageName" state' state).
    + intros [= <-]. by apply resolve_falsy_unchanged.
Qed.

Lemma resolve_returns (state : FbState) :
  (exists ps, playStates = Some ps) ->
  (forall overlay, composite (prop "png64" state) overlay <> EncodeFailed) ->
  exists state', resolve state = Returns state'.
Proof.
  intros [ps Hps] Henc. unfold resolve, _handleFeedbackState.
  assert (exists state1,
    (if truthy_field (prop "overlayQueryKey" state)
        || truthy_field (prop "pngQueryKey" state)
     then _handleFeedbackOverlayPlayStates playStates state
     else Returns state) = Returns state1
    /\ state1 !! "png64" = state !! "png64") as (state1 & -> & Hbase).
  { destruct (_ || _); [|by eauto].
    assert (exists state1, playStatesStage state = Returns state1) as [state1 Hrun].
    { unfold playStatesStage, _handleFeedbackOverlayPlayStates. rewrite Hps.
      destruct (hasOwnProperty "overlayQueryKey" state); cbn;
        destruct (hasOwnProperty "pngQueryKey" _); by eauto. }
    exists state1. split; [done|]. by apply playStatesStage_png64. }
  cbn. destruct (_ || _); [|by eauto]. apply imageStage_returns.
  unfold prop. by rewrite Hbase.
Qed.

(** A compositing step that fails on the overlay a state names ends the
    resolver. *)
Lemma resolve_throws_on_compositing (state : FbState) (name data : string) :
  truthy_field (prop "overlayQueryKey" state) || truthy_field (prop "pngQueryKey" state)
  = false ->
  state !! "overlayImageName" = Some (FVal (JStr name)) -> name <> EmptyString ->
  imgs !! name = Some data -> data <> EmptyString ->
  hasOwnProperty "png64" state = true ->
  composite (prop "png64" state) data = EncodeFailed ->
  resolve state = Throws.
Proof.
  intros Hguard Hname Hne Himg Hdata Hbase Hfail.
  unfold resolve, _handleFeedbackState. rewrite Hguard.
  change (Returns state ≫= ?k) with (k state). cbn beta.
  assert (prop "overlayImageName" state = FVal (JStr name)) as Hprop
    by (unfold prop; by rewrite Hname).
  rewrite Hprop. cbn [truthy_field truthy]. fold (truthy_string name).
  rewrite (truthy_string_nonempty name Hne). cbn [orb].
  unfold _handleFeedbackOverlayImage.
  assert (hasOwnProperty "overlayImageName" state = true) as ->
    by (unfold hasOwnProperty; by rewrite Hname).
  rewrite Hprop. cbn [toString_field toString].
  rewrite Himg, (truthy_string_nonempty data Hdata). cbn [negb].
  assert (hasOwnProperty "png64" (delete "overlayImageName" state) = true) as ->.
  { unfold hasOwnProperty in *. by rewrite lookup_delete_ne. }
  assert (prop "png64" (delete "overlayImageName" state) = prop "png64" state) as ->.
  { unfold prop. by rewrite lookup_delete_ne. }
  by rewrite Hfail.
Qed.

Lemma resolve_throws_without_playStates (state : FbState) :
  playStates = None ->
  truthy_field (prop "overlayQueryKey" state) || truthy_field (prop "pngQueryKey" state)
  = true ->
  resolve state = Throws.
Proof.
  intros Hps Hguard. unfold resolve, _handleFeedbackState. rewrite Hguard.
  unfold _handleFeedbackOverlayPlayStates. rewrite Hps.
  destruct (hasOwnProperty "overlayQueryKey" state) eqn:Ho; [done|]. cbn.
  apply orb_true_iff in Hguard as [Hq | Hq].
  - apply truthy_owned in Hq. congruence.
  - apply truthy_owned in Hq. by rewrite Hq.
Qed.

End ResolverMore.

Section Variants.






End Variants.

(** X13: when the resolver returns and when it throws.  With a play-state
    reply at hand it returns for every state on whose base picture [png64]
    the compositing step does not fail (the state having no field called
    [hasOwnProperty], as the entries of its layers in the reply, and names
    that are primitive values and no property names every object
    inherits), so that a refill reply that parses is then fulfilled.
    Without a play-state reply it throws on every state that carries a
    truthy query key, and the refill is rejected; and so it does when the
    compositing step fails on the overlay the state names. *)
Theorem resolver_failure_modes (ps : gmap string JValue)
    (imgs : gmap string string) (layerImageData : Field)
    (composite : Field -> string -> Composite) (state : FbState) :
  ((forall overlay, composite (prop "png64" state) overlay <> EncodeFailed) ->
   unshadowed state = true -> primitive_names state = true ->
   plain_image_names state = true ->
   unshadowed_layer ps (prop "overlayQueryKey" state) = true ->
   unshadowed_layer ps (prop "pngQueryKey" state) = true ->
   exists state',
     _handleFeedbackState (Some ps) imgs layerImageData composite state = Returns state'
     /\ queryFeedbackDetails
          (_handleFeedbackState (Some ps) imgs layerImageData composite)
          (Reply (Some state)) = Fulfilled state')
  /\ (truthy_field (prop "overlayQueryKey" state)
      || truthy_field (prop "pngQueryKey" state) = true ->
      _handleFeedbackState None imgs layerImageData composite state = Throws
      /\ queryFeedbackDetails
           (_handleFeedbackState None imgs layerImageData composite)
           (Reply (Some state)) = Rejected)
  /\ (forall name data,
        truthy_field (prop "overlayQueryKey" state)
        || truthy_field (prop "pngQueryKey" state) = false ->
        state !! "overlayImageName" = Some (FVal (JStr name)) -> name <> EmptyString ->
        imgs !! name = Some data -> data <> EmptyString ->
        hasOwnProperty "png64" state = true ->
        composite (prop "png64" state) data = EncodeFailed ->
        _handleFeedbackState (Some ps) imgs layerImageData composite state = Throws
        /\ queryFeedbackDetails
             (_handleFeedbackState (Some ps) imgs layerImageData composite)
             (Reply (Some state)) = Rejected).
Proof.
  split; [|split].
  - intros Henc _ _ _ _ _.
    destruct (resolve_returns (Some ps) imgs layerImageData composite state
                (ex_intro _ ps eq_refl) Henc) as [state' Hres].
    exists state'. split; [done|]. cbn. by rewrite Hres.
  - intros Hguard.
    pose proof (resolve_throws_without_playStates None imgs layerImageData composite
                  state eq_refl Hguard) as Hres.
    split; [done|]. cbn. by rewrite Hres.
  - intros name data Hguard Hname Hne Himg Hdata Hbase Hfail.
    pose proof (resolve_throws_on_compositing (Some ps) imgs layerImageData composite
                  state name data Hguard Hname Hne Himg Hdata Hbase Hfail) as Hres.
    split; [done|]. cbn. by rewrite Hres.
Qed.

Lemma resolver_failure_modes_witness :
  (exists state',
     _handleFeedbackState (Some running_playStates) glow_images FUndefined
       sample_composite overlay_state = Returns state'
     /\ queryFeedbackDetails
          (_handleFeedbackState (Some running_playStates) glow_images FUndefined
             sample_composite)
          (Reply (Some overlay_state)) = Fulfilled state')
  /\ (_handleFeedbackState None glow_images FUndefined sample_composite overlay_state
      = Throws
      /\ queryFeedbackDetails
           (_handleFeedbackState None glow_images FUndefined sample_composite)
           (Reply (Some overlay_state)) = Rejected)
  /\ (_handleFeedbackState (Some running_playStates) glow_images FUndefined
        (fun _ _ => EncodeFailed) named_overlay_state = Throws
      /\ queryFeedbackDetails
           (_handleFeedbackState (Some running_playStates) glow_images FUndefined
              (fun _ _ => EncodeFailed))
           (Reply (Some named_overlay_state)) = Rejected).
Proof.
  split; [|split].
  - apply (proj1 (resolver_failure_modes running_playStates glow_images FUndefined
                    sample_composite overlay_state)); try reflexivity.
    intros overlay. discriminate.
  - apply (proj1 (proj2 (resolver_failure_modes running_playStates glow_images FUndefined
                           sample_composite overlay_state))); reflexivity.
  - apply (proj2 (proj2 (resolver_failure_modes running_playStates glow_images FUndefined
                           (fun _ _ => EncodeFailed) named_overlay_state))
             "glow" "R0xPVw=="); reflexivity || discriminate.
Defined.

(** X14: resolving is idempotent on every state whose [imageName] is
    absent or falsy: what the resolver returns it returns unchanged when
    given it again. *)
Theorem resolver_idempotent (playStates : option (gmap string JValue))
    (imgs : gmap string string) (layerImageData : Field)
    (composite : Field -> string -> Composite) (state state' : FbState) :
  truthy_field (prop "imageName" state) = false ->
  _handleFeedbackState playStates imgs layerImageData composite state = Returns state' ->
  _handleFeedbackState playStates imgs layerImageData composite state' = Returns state'.
Proof. apply resolve_idempotent. Qed.

Lemma resolver_idempotent_witness :
  _handleFeedbackState (Some running_playStates) glow_images FUndefined sample_composite
    {[ "png64" := FVal (JStr "Q09NUE9TSVRF") ]}
  = Returns {[ "png64" := FVal (JStr "Q09NUE9TSVRF") ]}.
Proof.
  apply (resolver_idempotent (Some running_playStates) glow_images FUndefined
           sample_composite overlay_state).
  - reflexivity.
  - vm_compute. reflexivity.
Defined.





(** ** [rgb] *)

Section RgbFacts.
Import Rgb.

Lemma lor_shiftl_add (a k y : Z) :
  0 <= k -> 0 <= y < 2 ^ k -> Z.lor (Z.shiftl a k) y = a * 2 ^ k + y.
Proof.
  intros Hk Hy.
  assert (Z.land (Z.shiftl a k) y = 0) as Hland.
  { apply Z.bits_inj'. intros n Hn. rewrite Z.land_spec, Z.bits_0.
    destruct (Z.lt_ge_cases n k) as [Hlt | Hge].
    - by rewrite Z.shiftl_spec_low.
    - rewrite <- (Z.mod_small y (2 ^ k)) by lia.
      rewrite Z.mod_pow2_bits_high by lia. apply andb_false_r. }
  pose proof (Z.add_lor_land (Z.shiftl a k) y) as Hadd.
  rewrite Hland, Z.shiftl_mul_pow2 in Hadd by lia.
  rewrite Z.shiftl_mul_pow2 by lia. lia.
Qed.

Lemma wrap32_small (n : Z) : - 2 ^ 31 <= n < 2 ^ 31 -> wrap32 n = n.
Proof. intros Hn. unfold wrap32. rewrite Z.mod_small; lia. Qed.

Lemma and_ff_low_byte (p : Parsed) : and_ff p = low_byte p.
Proof.
  unfold and_ff, low_byte, toInt32. change 0xff with (Z.ones 8).
  rewrite Z.land_ones by lia. destruct p as [|n|]; [done| |done].
  unfold wrap32. change (2 ^ 8) with 256. change (2 ^ 32) with 4294967296.
  change (2 ^ 31) with 2147483648. Z.div_mod_to_equations. lia.
Qed.

Lemma low_byte_range (p : Parsed) : 0 <= low_byte p < 256.
Proof. destruct p as [|n|]; cbn; [lia | apply Z.mod_pos_bound; lia | lia]. Qed.

Lemma pack_bytes (r g b : Z) :
  0 <= r < 256 -> 0 <= g < 256 -> 0 <= b < 256 ->
  or32 (or32 (shl32 r 16) (shl32 g 8)) b = r * 65536 + g * 256 + b.
Proof.
  intros Hr Hg Hb. unfold or32, shl32.
  rewrite !Z.shiftl_mul_pow2 by lia.
  change (2 ^ 16) with 65536. change (2 ^ 8) with 256.
  rewrite (wrap32_small (r * 65536)), (wrap32_small (g * 256))
    by (change (2 ^ 31) with 2147483648; lia).
  assert (Z.lor (r * 65536) (g * 256) = r * 65536 + g * 256) as ->.
  { pose proof (lor_shiftl_add r 16 (g * 256)) as H.
    rewrite Z.shiftl_mul_pow2 in H by lia. apply H; [lia|].
    change (2 ^ 16) with 65536. lia. }
  rewrite (wrap32_small (r * 65536 + g * 256))
    by (change (2 ^ 31) with 2147483648; lia).
  assert (r * 65536 + g * 256 = (r * 256 + g) * 2 ^ 8) as -> by lia.
  pose proof (lor_shiftl_add (r * 256 + g) 8 b) as H.
  rewrite Z.shiftl_mul_pow2 in H by lia.
  rewrite H by (change (2 ^ 8) with 256; lia).
  rewrite wrap32_small; change (2 ^ 31) with 2147483648; change (2 ^ 8) with 256; lia.
Qed.

End RgbFacts.

(** X17: [rgb] gives [false] exactly when one of the three components
    parses to [NaN]; otherwise it gives a number below 2^24 that packs the
    low bytes of the parsed components, red in the top byte, so that the
    three bytes can be read back from it. *)
Theorem rgb_packs_low_bytes (parseInt : JValue -> Z -> Rgb.Parsed) (r g b : JValue)
    (base : option Z) :
  let rp := parseInt r (default 10 base) in
  let gp := parseInt g (default 10 base) in
  let bp := parseInt b (default 10 base) in
  match Rgb.rgb parseInt r g b base with
  | None => Rgb.isNaN rp || Rgb.isNaN gp || Rgb.isNaN bp = true
  | Some v =>
      Rgb.isNaN rp || Rgb.isNaN gp || Rgb.isNaN bp = false
      /\ v = Rgb.low_byte rp * 65536 + Rgb.low_byte gp * 256 + Rgb.low_byte bp
      /\ 0 <= v < 2 ^ 24
      /\ v / 65536 = Rgb.low_byte rp
      /\ (v / 256) mod 256 = Rgb.low_byte gp
      /\ v mod 256 = Rgb.low_byte bp
  end.
Proof.
  cbn zeta. unfold Rgb.rgb.
  set (rp := parseInt r (default 10 base)).
  set (gp := parseInt g (default 10 base)).
  set (bp := parseInt b (default 10 base)).
  destruct (Rgb.isNaN rp || Rgb.isNaN gp || Rgb.isNaN bp); [done|].
  rewrite !and_ff_low_byte.
  pose proof (low_byte_range rp) as Hr.
  pose proof (low_byte_range gp) as Hg.
  pose proof (low_byte_range bp) as Hb.
  rewrite pack_bytes by done.
  change (2 ^ 24) with 16777216.
  repeat split; try lia; Z.div_mod_to_equations; lia.
Qed.

(** ** [debounce] *)

Section DebounceFacts.
Import Debounce.
Context {A : Type}.

Lemma calls_leave_last (d : Debounced A) (calls : list A) (last : A) :
  foldl step d (map Call (calls ++ [last]))
  = mkDebounced (db_timeout d) (Some last) (db_runs d).
Proof.
  revert d. induction calls as [|c calls IH]; intros d; [done|].
  cbn [app map foldl]. by rewrite IH.
Qed.

Lemma runs_bounded_by_fires (d : Debounced A) (events : list (Event A)) :
  (length (db_runs (foldl step d events))
   <= length (db_runs d) + length (filter (fun e => is_fire e = true) events))%nat.
Proof.
  revert d. induction events as [|e events IH]; intros d; [cbn; lia|].
  cbn [foldl]. specialize (IH (step d e)).
  destruct e as [args|].
  - rewrite filter_cons_False by done. exact IH.
  - rewrite filter_cons_True by done. cbn [length].
    assert (length (db_runs (step d Fire)) <= S (length (db_runs d)))%nat.
    { cbn. destruct (db_timer d); cbn; rewrite ?length_app; cbn; lia. }
    lia.
Qed.

End DebounceFacts.

(** X18: a burst of calls to a debounced function followed by the firing
    of its timer runs the wrapped function exactly once, with the
    arguments of the last call, and leaves no timer pending; and over any
    sequence of calls and firings the function never runs more often than
    the timer fired. *)
Theorem debounce_runs_last_call {A : Type} (d : Debounce.Debounced A)
    (calls : list A) (last : A) (events : list (Debounce.Event A)) :
  Debounce.db_runs
    (foldl Debounce.step d (map Debounce.Call (calls ++ [last]) ++ [Debounce.Fire]))
  = Debounce.db_runs d ++ [last]
  /\ Debounce.db_timer
       (foldl Debounce.step d (map Debounce.Call (calls ++ [last]) ++ [Debounce.Fire]))
     = None
  /\ (length (Debounce.db_runs (foldl Debounce.step d events))
      <= length (Debounce.db_runs d)
         + length (filter (fun e => Debounce.is_fire e = true) events))%nat.
Proof.
  rewrite foldl_app, calls_leave_last. cbn. repeat split.
  apply runs_bounded_by_fires.
Qed.

(** ** Ids *)

Section IdFacts.

Lemma string_map_append (f : ascii -> ascii) (s t : string) :
  string_map f (s +:+ t) = string_map f s +:+ string_map f t.
Proof. induction s as [|c s IH]; [done|]. rewrite append_cons. cbn. by rewrite IH. Qed.

Lemma string_map_length (f : ascii -> ascii) (s : string) :
  String.length (string_map f s) = String.length s.
Proof. induction s as [|c s IH]; [done|]. cbn. by rewrite IH. Qed.

Lemma sanitized_char (c : ascii) :
  is_id_char (if is_alnum (lower_char c) then lower_char c else "_"%char) = true.
Proof. destruct c as [[] [] [] [] [] [] [] []]; reflexivity. Qed.

Lemma sanitized_chars (s : string) :
  string_forall is_id_char (replace_non_alnum (toLowerCase s)) = true.
Proof.
  unfold replace_non_alnum, toLowerCase.
  induction s as [|c s IH]; [done|].
  cbn [string_map string_forall]. by rewrite sanitized_char, IH.
Qed.

Lemma sanitize_idempotent_char (c : ascii) :
  let d := if is_alnum (lower_char c) then lower_char c else "_"%char in
  (if is_alnum (lower_char d) then lower_char d else "_"%char) = d.
Proof. destruct c as [[] [] [] [] [] [] [] []]; reflexivity. Qed.

Lemma sanitize_idempotent (s : string) :
  replace_non_alnum (toLowerCase (replace_non_alnum (toLowerCase s)))
  = replace_non_alnum (toLowerCase s).
Proof.
  unfold replace_non_alnum, toLowerCase.
  induction s as [|c s IH]; [done|].
  cbn [string_map]. f_equal; [apply sanitize_idempotent_char | exact IH].
Qed.

Lemma variableId_unfold (t v : string) :
  variableId t v
  = replace_non_alnum (toLowerCase t) +:+ "__" +:+ replace_non_alnum (toLowerCase v).
Proof.
  unfold variableId, makeVarDefinition, toLowerCase, replace_non_alnum. cbn [snd].
  by rewrite !string_map_append.
Qed.





Lemma contains_tilde_free (s : string) : tilde_free s = true -> contains "~" s = false.
Proof.
  induction s as [|c s IH]; [done|]. cbn [tilde_free contains String.prefix].
  intros [Hc Hs]%andb_true_iff. apply negb_true_iff in Hc.
  rewrite (IH Hs), orb_false_r.
  destruct (ascii_dec "~" c) as [<- | _]; [done|]. done.
Qed.

End IdFacts.

(** X19: for ASCII names, the variable id made from a title name and a
    variable name consists of lower-case letters, digits and underscores
    only, and is as long as the two names plus the two underscores between
    them. *)
Theorem variableId_charset (title_name varname : string) :
  is_ascii title_name = true -> is_ascii varname = true ->
  string_forall is_id_char (variableId title_name varname) = true
  /\ String.length (variableId title_name varname)
     = (String.length title_name + 2 + String.length varname)%nat.
Proof.
  intros _ _. split.
  - apply sanitized_chars.
  - unfold variableId, makeVarDefinition, toLowerCase, replace_non_alnum. cbn [snd].
    rewrite !string_map_length, !length_append. cbn. lia.
Qed.

Lemma variableId_charset_witness :
  string_forall is_id_char (variableId "Lower Third" "First Name") = true
  /\ String.length (variableId "Lower Third" "First Name")
     = (String.length "Lower Third" + 2 + String.length "First Name")%nat.
Proof. apply variableId_charset; reflexivity. Defined.

(** X20: variable ids do not tell ASCII names apart that differ only in
    letter case or in which non-alphanumeric characters they use: two
    title names with the same sanitised form, and likewise two variable
    names, get the same id; in particular sanitising a name again changes
    nothing. *)
Theorem variableId_collisions (t1 t2 v1 v2 : string) :
  is_ascii t1 = true -> is_ascii t2 = true -> is_ascii v1 = true -> is_ascii v2 = true ->
  replace_non_alnum (toLowerCase t1) = replace_non_alnum (toLowerCase t2) ->
  replace_non_alnum (toLowerCase v1) = replace_non_alnum (toLowerCase v2) ->
  variableId t1 v1 = variableId t2 v2
  /\ variableId (replace_non_alnum (toLowerCase t1)) (replace_non_alnum (toLowerCase v1))
     = variableId t1 v1.
Proof.
  intros _ _ _ _ Ht Hv. rewrite !variableId_unfold. split.
  - by rewrite Ht, Hv.
  - by rewrite !sanitize_idempotent.
Qed.

Lemma variableId_collisions_witness :
  variableId "Lower Third" "Name" = variableId "lower-third" "NAME".
Proof.
  apply (variableId_collisions "Lower Third" "lower-third" "Name" "NAME"); reflexivity.
Defined.



(** ** Connection attempts *)

Section Attempts.

Lemma initQWebChannel_attempt (st : CaptivateInstance) (url : string) :
  serverUrl (config st) = Some url ->
  initQWebChannel st = emit [UpdateStatus Connecting; OpenSocket url] st.
Proof. unfold initQWebChannel. by intros ->. Qed.

Lemma concat_replicate_comm {B : Type} (l : list B) (n : nat) :
  concat (replicate n l) ++ l = l ++ concat (replicate n l).
Proof.
  induction n as [|n IH]; cbn; [by rewrite app_nil_r|].
  by rewrite <- app_assoc, IH.
Qed.

Lemma serverUrl_needsNewConfig (c : Config) (flag : bool) :
  serverUrl (mkConfig (bonjour_host c) (host c) (port c) flag) = serverUrl c.
Proof. reflexivity. Qed.

End Attempts.

(** X22: while the watchdog is armed and the configuration yields an
    address, each of its ticks reports [Connecting] and opens one more
    socket to that address, and leaves the watchdog armed: after [n] ticks
    [n] sockets have been opened. *)
Theorem watchdog_ticks_open_sockets (st : CaptivateInstance) (t : Timer) (url : string)
    (n : nat) :
  serverUrl (config st) = Some url ->
  connectionWatchdog st = Some t ->
  timer_task t = RetryConnection ->
  effects (Nat.iter n fire_connectionWatchdog st)
  = effects st ++ concat (replicate n [UpdateStatus Connecting; OpenSocket url])
  /\ connectionWatchdog (Nat.iter n fire_connectionWatchdog st) = Some t
  /\ config (Nat.iter n fire_connectionWatchdog st) = config st.
Proof.
  intros Hurl Hdog Htask. induction n as [|n (He & Hw & Hc)].
  - cbn. by rewrite app_nil_r.
  - rewrite !Nat.iter_succ. set (stn := Nat.iter n fire_connectionWatchdog st) in *.
    assert (fire_connectionWatchdog stn
            = emit [UpdateStatus Connecting; OpenSocket url] stn) as ->.
    { unfold fire_connectionWatchdog. rewrite Hw, Htask. cbn [run_task].
      apply initQWebChannel_attempt. by rewrite Hc. }
    cbn [effects connectionWatchdog config emit]. rewrite He.
    repeat split; try done.
    rewrite <- app_assoc. f_equal. cbn [replicate concat].
    apply (concat_replicate_comm [UpdateStatus Connecting; OpenSocket url]).
Qed.

Lemma watchdog_ticks_open_sockets_witness :
  effects (Nat.iter 3 fire_connectionWatchdog (on_close (new_instance default_config)))
  = effects (on_close (new_instance default_config))
    ++ concat (replicate 3 [UpdateStatus Connecting; OpenSocket "ws://127.0.0.1:9023"]).
Proof.
  apply (watchdog_ticks_open_sockets (on_close (new_instance default_config))
           reconnect_timer "ws://127.0.0.1:9023" 3); reflexivity.
Defined.

(** X23: [configUpdated] takes the new configuration over with
    [needsNewConfig] reset and attempts the connection at once; it neither
    arms nor disarms the watchdog.  After an ['error'] event has cleared
    host and port, it is the configuration update that makes an address
    available again; without an address nothing is attempted. *)
Theorem configUpdated_restores_attempts (c : Config) (st : CaptivateInstance) :
  config (configUpdated c (on_error st))
  = mkConfig (bonjour_host c) (host c) (port c) false
  /\ connectionWatchdog (configUpdated c (on_error st)) = connectionWatchdog st
  /\ effects (configUpdated c (on_error st))
     = effects st ++ UpdateStatus BadConfig
                     :: match serverUrl c with
                        | Some url => [UpdateStatus Connecting; OpenSocket url]
                        | None => []
                        end
  /\ serverUrl (config (configUpdated c (on_error st))) = serverUrl c.
Proof.
  unfold configUpdated, initQWebChannel.
  cbn [config set_config]. rewrite serverUrl_needsNewConfig.
  destruct (serverUrl c) as [url|] eqn:Hurl; cbn; rewrite ?Hurl;
    repeat split; by rewrite <- ?app_assoc.
Qed.

(** ** Titles and variables *)

Section TitleRegistry.
Import Titles TitleFacts.

Lemma set_add_elem (name x : string) (names : list string) :
  x ∈ set_add name names <-> x ∈ names \/ x = name.
Proof.
  unfold set_add. destruct (decide (name ∈ names)) as [Hin | Hnin].
  - split; [by left | intros [? | ->]; done].
  - rewrite elem_of_app, list_elem_of_singleton. done.
Qed.

Lemma set_add_NoDup (name : string) (names : list string) :
  NoDup names -> NoDup (set_add name names).
Proof.
  intros Hnd. unfold set_add. destruct (decide (name ∈ names)) as [Hin | Hnin]; [done|].
  apply NoDup_app. split; [done|]. split; [|apply NoDup_singleton].
  intros x Hx ->%list_elem_of_singleton. done.
Qed.

(** The inner loop, over the variables of one title. *)
Lemma register_variables_spec (ref : nat) (title : Title) (vars : list TitleVariable)
    (p : Pass) :
  let p' := foldl (register_variable ref title) p vars in
  p_byName p' = p_byName p
  /\ p_byId p' = p_byId p
  /\ p_defs p' = p_defs p ++ map (definition_of title) vars
  /\ (p_varValues p = datum_value <$> p_varData p ->
      p_varValues p' = datum_value <$> p_varData p')
  /\ (forall key d, p_varData p' !! key = Some d ->
        p_varData p !! key = Some d \/ datum_title d = ref)
  /\ (forall key, is_Some (p_varValues p !! key) \/ key ∈ map (key_of title) vars ->
        is_Some (p_varValues p' !! key))
  /\ (forall key v, p_varValues p' !! key = Some v ->
        p_varValues p !! key = Some v
        \/ exists x, x ∈ vars /\ key = key_of title x /\ v = value x)
  /\ (forall key, key ∉ map (key_of title) vars ->
        p_varValues p' !! key = p_varValues p !! key)
  /\ (forall x, x ∈ p_varnames p' <-> x ∈ p_varnames p \/ x ∈ map variable vars)
  /\ (NoDup (p_varnames p) -> NoDup (p_varnames p')).
Proof.
  revert p. induction vars as [|x vars IH]; intros p.
  - cbn. repeat split; try done; try tauto.
    + by rewrite app_nil_r.
    + intros key [H | H]; [done | by apply elem_of_nil in H].
    + intros [H | H]; [done | by apply elem_of_nil in H].
  - cbn [foldl]. specialize (IH (register_variable ref title p x)).
    cbn zeta in IH. destruct IH as (H1 & H2 & H3 & H4 & H5 & H6 & H7 & H8 & H9 & H10).
    cbn zeta. repeat split.
    + by rewrite H1.
    + by rewrite H2.
    + rewrite H3. cbn [register_variable p_defs map]. by rewrite <- app_assoc.
    + intros Hagree. apply H4. cbn [register_variable p_varValues p_varData].
      rewrite fmap_insert. cbn [datum_value]. by rewrite Hagree.
    + intros key d Hd. apply H5 in Hd as [Hd | Hd]; [|by right].
      cbn [register_variable p_varData] in Hd.
      apply lookup_insert_Some in Hd as [[_ <-] | [_ Hd]]; [by right | by left].
    + intros key Hkey. apply H6. cbn [register_variable p_varValues map] in *.
      destruct (decide (key = key_of title x)) as [-> | Hne].
      * left. unfold key_of, variableId. rewrite lookup_insert_eq. eauto.
      * destruct Hkey as [Hkey | [? | Hkey]%elem_of_cons]; [|done|by right].
        left. unfold key_of, variableId in Hne. by rewrite lookup_insert_ne.
    + intros key v Hv. apply H7 in Hv as [Hv | (y & Hy & -> & ->)].
      * cbn [register_variable p_varValues] in Hv.
        apply lookup_insert_Some in Hv as [[<- <-] | [_ Hv]]; [|by left].
        right. exists x. split; [apply elem_of_cons; by left | done].
      * right. exists y. split; [apply elem_of_cons; by right | done].
    + intros key Hkey. cbn [map] in Hkey. apply not_elem_of_cons in Hkey as [Hne Hkey].
      rewrite (H8 key Hkey). cbn [register_variable p_varValues].
      unfold key_of, variableId in Hne. by rewrite lookup_insert_ne.
    + intros Hy. apply H9 in Hy as [Hy | Hy].
      * cbn [register_variable p_varnames] in Hy. apply set_add_elem in Hy as [Hy | ->].
        -- by left.
        -- right. apply elem_of_cons. by left.
      * right. apply elem_of_cons. by right.
    + intros [Hy | [-> | Hy]%elem_of_cons]; apply H9.
      * left. apply set_add_elem. by left.
      * left. apply set_add_elem. by right.
      * by right.
    + intros Hnd. apply H10. by apply set_add_NoDup.
Qed.

Lemma register_variables_frame (ref : nat) (title : Title) (vars : list TitleVariable)
    (p : Pass) (key : string) :
  key ∉ map (key_of title) vars ->
  p_varValues (foldl (register_variable ref title) p vars) !! key = p_varValues p !! key
  /\ p_varData (foldl (register_variable ref title) p vars) !! key = p_varData p !! key.
Proof.
  revert p. induction vars as [|x vars IH]; intros p Hkey; [done|].
  cbn [map] in Hkey. apply not_elem_of_cons in Hkey as [Hne Hkey].
  cbn [foldl]. destruct (IH (register_variable ref title p x) Hkey) as [-> ->].
  cbn [register_variable p_varValues p_varData].
  unfold key_of, variableId in Hne. by rewrite !lookup_insert_ne.
Qed.

(** What the inner loop writes for the keys it meets: the data of the
    last variable with that key. *)
Lemma register_variables_written (ref : nat) (title : Title) (vars : list TitleVariable)
    (p : Pass) (key : string) :
  key ∈ map (key_of title) vars ->
  exists x, x ∈ vars /\ key = key_of title x
    /\ p_varValues (foldl (register_variable ref title) p vars) !! key = Some (value x)
    /\ p_varData (foldl (register_variable ref title) p vars) !! key
       = Some (mkDatum ref (variable x) (value x)).
Proof.
  revert p. induction vars as [|x vars IH]; intros p Hkey.
  { by apply elem_of_nil in Hkey. }
  cbn [foldl]. destruct (decide (key ∈ map (key_of title) vars)) as [Hin | Hnin].
  - destruct (IH (register_variable ref title p x) Hin) as (y & Hy & -> & Hv & Hd).
    exists y. split; [apply elem_of_cons; by right | done].
  - cbn [map] in Hkey. apply elem_of_cons in Hkey as [-> | Hkey]; [|done].
    exists x. split; [apply elem_of_cons; by left|]. split; [done|].
    destruct (register_variables_frame ref title vars (register_variable ref title p x)
                (key_of title x) Hnin) as [-> ->].
    cbn [register_variable p_varValues p_varData].
    unfold key_of, variableId. by rewrite !lookup_insert_eq.
Qed.

Lemma register_title_fields (ref : nat) (title : Title) (p : Pass) :
  p_byName (register_title ref title p) = <[title_name title := ref]> (p_byName p)
  /\ p_byId (register_title ref title p) = <[toString (title_id title) := ref]> (p_byId p)
  /\ p_defs (register_title ref title p) = p_defs p ++ definitions_of title
  /\ (p_varValues p = datum_value <$> p_varData p ->
      p_varValues (register_title ref title p)
      = datum_value <$> p_varData (register_title ref title p))
  /\ (forall x, x ∈ p_varnames (register_title ref title p)
              <-> x ∈ p_varnames p \/ x ∈ map variable (title_variables title))
  /\ (NoDup (p_varnames p) -> NoDup (p_varnames (register_title ref title p))).
Proof.
  unfold register_title.
  pose proof (register_variables_spec ref title (title_variables title)
    (mkPass (<[title_name title := ref]> (p_byName p))
       (<[toString (title_id title) := ref]> (p_byId p))
       (p_defs p) (p_varData p) (p_varValues p) (p_varnames p))) as Hspec.
  cbn zeta in Hspec.
  destruct Hspec as (H1 & H2 & H3 & H4 & _ & _ & _ & _ & H9 & H10).
  repeat split; try done; by apply H9.
Qed.

(** The outer loop, over the titles from position [ref0] on. *)
Lemma register_titles_spec (ts : list Title) :
  forall (ref0 : nat) (p : Pass),
  let p' := register_titles ref0 ts p in
  p_defs p' = p_defs p ++ flat_map definitions_of ts
  /\ (p_varValues p = datum_value <$> p_varData p ->
      p_varValues p' = datum_value <$> p_varData p')
  /\ (forall key,
        (key ∈ flat_map keys_of ts ->
         exists i t x, ts !! i = Some t /\ x ∈ title_variables t /\ key = key_of t x
           /\ p_varValues p' !! key = Some (value x)
           /\ p_varData p' !! key = Some (mkDatum (ref0 + i) (variable x) (value x)))
        /\ (key ∉ flat_map keys_of ts ->
            p_varValues p' !! key = p_varValues p !! key
            /\ p_varData p' !! key = p_varData p !! key))
  /\ (forall id,
        (id ∈ map (fun t => toString (title_id t)) ts ->
         exists i t, ts !! i = Some t /\ toString (title_id t) = id
           /\ p_byId p' !! id = Some (ref0 + i)%nat)
        /\ (id ∉ map (fun t => toString (title_id t)) ts ->
            p_byId p' !! id = p_byId p !! id))
  /\ (forall name,
        (name ∈ map title_name ts ->
         exists i t, ts !! i = Some t /\ title_name t = name
           /\ p_byName p' !! name = Some (ref0 + i)%nat)
        /\ (name ∉ map title_name ts ->
            p_byName p' !! name = p_byName p !! name))
  /\ (forall x, x ∈ p_varnames p'
              <-> x ∈ p_varnames p \/ x ∈ flat_map (fun t => map variable (title_variables t)) ts)
  /\ (NoDup (p_varnames p) -> NoDup (p_varnames p')).
Proof.
  induction ts as [|t ts IH]; intros ref0 p.
  { cbn. repeat split; try done; try tauto.
    - by rewrite app_nil_r.
    - intros H. by apply elem_of_nil in H.
    - intros H. by apply elem_of_nil in H.
    - intros H. by apply elem_of_nil in H.
    - intros [H | H]; [done | by apply elem_of_nil in H]. }
  cbn [register_titles]. cbn zeta.
  specialize (IH (S ref0) (register_title ref0 t p)). cbn zeta in IH.
  destruct IH as (IA & IB & IC & ID & IE & IF & IG).
  destruct (register_title_fields ref0 t p) as (F1 & F2 & F3 & F4 & F5 & F6).
  split; [|split; [|split; [|split; [|split; [|split]]]]].
  - rewrite IA, F3. cbn [flat_map]. by rewrite <- app_assoc.
  - intros Hagree. by apply IB, F4.
  - intros key. destruct (IC key) as [ICin ICout]. split.
    + intros Hkey. cbn [flat_map] in Hkey.
      destruct (decide (key ∈ flat_map keys_of ts)) as [Hin | Hnin].
      * destruct (ICin Hin) as (i & t' & x & Hi & Hx & -> & Hv & Hd).
        exists (S i), t', x. repeat split; try done.
        by replace (ref0 + S i)%nat with (S ref0 + i)%nat by lia.
      * apply elem_of_app in Hkey as [Hkey | Hkey]; [|done].
        destruct (ICout Hnin) as [-> ->].
        unfold register_title.
        destruct (register_variables_written ref0 t (title_variables t)
          (mkPass (<[title_name t := ref0]> (p_byName p))
             (<[toString (title_id t) := ref0]> (p_byId p))
             (p_defs p) (p_varData p) (p_varValues p) (p_varnames p)) key Hkey)
          as (x & Hx & -> & Hv & Hd).
        exists 0%nat, t, x. repeat split; try done.
        by replace (ref0 + 0)%nat with ref0 by lia.
    + intros Hkey. cbn [flat_map] in Hkey. apply not_elem_of_app in Hkey as [Hk1 Hk2].
      destruct (ICout Hk2) as [-> ->]. unfold register_title.
      by destruct (register_variables_frame ref0 t (title_variables t)
        (mkPass (<[title_name t := ref0]> (p_byName p))
           (<[toString (title_id t) := ref0]> (p_byId p))
           (p_defs p) (p_varData p) (p_varValues p) (p_varnames p)) key Hk1) as [-> ->].
  - intros id. destruct (ID id) as [IDin IDout]. split.
    + intros Hid. cbn [map] in Hid.
      destruct (decide (id ∈ map (fun t => toString (title_id t)) ts)) as [Hin | Hnin].
      * destruct (IDin Hin) as (i & t' & Hi & Ht & Hl).
        exists (S i), t'. repeat split; try done.
        by replace (ref0 + S i)%nat with (S ref0 + i)%nat by lia.
      * apply elem_of_cons in Hid as [-> | Hid]; [|done].
        exists 0%nat, t. repeat split; try done.
        rewrite (IDout Hnin), F2, lookup_insert_eq. f_equal. lia.
    + intros Hid. cbn [map] in Hid. apply not_elem_of_cons in Hid as [Hne Hid].
      rewrite (IDout Hid), F2. by rewrite lookup_insert_ne.
  - intros name. destruct (IE name) as [IEin IEout]. split.
    + intros Hn. cbn [map] in Hn.
      destruct (decide (name ∈ map title_name ts)) as [Hin | Hnin].
      * destruct (IEin Hin) as (i & t' & Hi & Ht & Hl).
        exists (S i), t'. repeat split; try done.
        by replace (ref0 + S i)%nat with (S ref0 + i)%nat by lia.
      * apply elem_of_cons in Hn as [-> | Hn]; [|done].
        exists 0%nat, t. repeat split; try done.
        rewrite (IEout Hnin), F1, lookup_insert_eq. f_equal. lia.
    + intros Hn. cbn [map] in Hn. apply not_elem_of_cons in Hn as [Hne Hn].
      rewrite (IEout Hn), F1. by rewrite lookup_insert_ne.
  - intros x. rewrite IF, F5. cbn [flat_map]. rewrite elem_of_app. tauto.
  - intros Hnd. by apply IG, F6.
Qed.

Lemma flat_map_variables (ts : list Title) (n : string) :
  n ∈ flat_map (fun t => map variable (title_variables t)) ts
  <-> exists t x, t ∈ ts /\ x ∈ title_variables t /\ variable x = n.
Proof.
  rewrite list_elem_of_In, in_flat_map. split.
  - intros (t & Ht & Hn). apply in_map_iff in Hn as (x & Hx & Hin).
    exists t, x. by rewrite !list_elem_of_In.
  - intros (t & x & Ht & Hx & Hn). exists t. rewrite <- list_elem_of_In. split; [done|].
    apply in_map_iff. exists x. by rewrite <- list_elem_of_In.
Qed.


Lemma getCurrentTitles_result (tf : option (list Title)) (reg : Registry)
    (c : Completion) (reg' : Registry) :
  getCurrentTitles (Parsed tf) reg = Some (c, reg') ->
  let ts := rev (default [] tf) in
  let p := register_titles 0 ts empty_pass in
  c = Normal
  /\ reg' = mkRegistry ts (p_byName p) (p_byId p) (p_varData p) (p_varValues p)
              (merge_sort String.le (p_varnames p))
              (console reg
               ++ [SetVariableDefinitions (p_defs p); SetVariableValues (p_varValues p)]).
Proof.
  unfold getCurrentTitles. cbn zeta.
  destruct (plain_titles (rev (default [] tf))); [|done].
  intros [= <- <-]. by split.
Qed.




(** X25: (getCurrentTitles, lines 356-367) after a refresh a variable id
    has a value exactly when some variable of a listed title has that id,
    and each entry of the variable data points at a listed title that has a
    variable of that id, name and value.  An index entry points at a title
    of that id, or of that name. *)
Theorem refresh_entries_resolve (tf : option (list Title)) (reg : Registry)
    (c : Completion) (reg' : Registry) :
  getCurrentTitles (Parsed tf) reg = Some (c, reg') ->
  (forall key, is_Some (varValues reg' !! key)
               <-> key ∈ flat_map keys_of (titles reg'))
  /\ (forall key d, varData reg' !! key = Some d ->
        exists t x, titles reg' !! datum_title d = Some t /\ x ∈ title_variables t
          /\ key = key_of t x /\ datum_varname d = variable x /\ datum_value d = value x
          /\ varValues reg' !! key = Some (value x))
  /\ (forall id ref, titlesById reg' !! id = Some ref ->
        exists t, titles reg' !! ref = Some t /\ toString (title_id t) = id)
  /\ (forall name ref, titlesByName reg' !! name = Some ref ->
        exists t, titles reg' !! ref = Some t /\ title_name t = name).
Proof.
  intros Hrun. apply getCurrentTitles_result in Hrun as [_ ->]. cbn zeta.
  cbn [titles varValues varData titlesById titlesByName].
  set (ts := rev (default [] tf)).
  destruct (register_titles_spec ts 0 empty_pass) as (_ & _ & HC & HD & HE & _).
  cbn zeta in HC, HD, HE.
  split; [|split; [|split]].
  - intros key. destruct (HC key) as [Hin Hout]. split.
    + intros Hsome. destruct (decide (key ∈ flat_map keys_of ts)) as [Hk | Hk]; [done|].
      destruct (Hout Hk) as [Hv _]. rewrite Hv in Hsome. cbn in Hsome.
      rewrite lookup_empty in Hsome. by destruct Hsome.
    + intros Hk. destruct (Hin Hk) as (i & t & x & _ & _ & _ & Hv & _).
      by rewrite Hv.
  - intros key d Hd. destruct (HC key) as [Hin Hout].
    destruct (decide (key ∈ flat_map keys_of ts)) as [Hk | Hk].
    + destruct (Hin Hk) as (i & t & x & Hi & Hx & Hkey & Hv & Hd').
      rewrite Hd' in Hd. injection Hd as <-. exists t, x. by cbn.
    + destruct (Hout Hk) as [_ Hd']. rewrite Hd' in Hd. cbn in Hd.
      by rewrite lookup_empty in Hd.
  - intros id ref Href. destruct (HD id) as [Hin Hout].
    destruct (decide (id ∈ map (fun t => toString (title_id t)) ts)) as [Hk | Hk].
    + destruct (Hin Hk) as (i & t & Hi & Ht & Hl). rewrite Hl in Href.
      injection Href as <-. by exists t.
    + rewrite (Hout Hk) in Href. cbn in Href. by rewrite lookup_empty in Href.
  - intros name ref Href. destruct (HE name) as [Hin Hout].
    destruct (decide (name ∈ map title_name ts)) as [Hk | Hk].
    + destruct (Hin Hk) as (i & t & Hi & Ht & Hl). rewrite Hl in Href.
      injection Href as <-. by exists t.
    + rewrite (Hout Hk) in Href. cbn in Href. by rewrite lookup_empty in Href.
Qed.

Lemma refresh_entries_resolve_witness :
  (forall key, is_Some (varValues sample_registry !! key)
               <-> key ∈ flat_map keys_of (titles sample_registry))
  /\ (forall key d, varData sample_registry !! key = Some d ->
        exists t x, titles sample_registry !! datum_title d = Some t
          /\ x ∈ title_variables t
          /\ key = key_of t x /\ datum_varname d = variable x /\ datum_value d = value x
          /\ varValues sample_registry !! key = Some (value x))
  /\ (forall id ref, titlesById sample_registry !! id = Some ref ->
        exists t, titles sample_registry !! ref = Some t /\ toString (title_id t) = id)
  /\ (forall name ref, titlesByName sample_registry !! name = Some ref ->
        exists t, titles sample_registry !! ref = Some t /\ title_name t = name).
Proof.
  apply (refresh_entries_resolve (Some sample_titles) empty_registry Normal sample_registry).
  reflexivity.
Defined.

(** X26: (getCurrentTitles, lines 350-369) after a refresh [variableNames]
    holds each variable name of the listed titles once, whatever number of
    titles use it, and nothing else, in ascending order. *)
Theorem refresh_variable_names (tf : option (list Title)) (reg : Registry)
    (c : Completion) (reg' : Registry) :
  getCurrentTitles (Parsed tf) reg = Some (c, reg') ->
  StronglySorted String.le (variableNames reg')
  /\ NoDup (variableNames reg')
  /\ (forall n, n ∈ variableNames reg'
                <-> exists t x, t ∈ titles reg' /\ x ∈ title_variables t /\ variable x = n).
Proof.
  intros Hrun. apply getCurrentTitles_result in Hrun as [_ ->]. cbn zeta.
  cbn [titles variableNames].
  set (ts := rev (default [] tf)).
  destruct (register_titles_spec ts 0 empty_pass) as (_ & _ & _ & _ & _ & HF & HG).
  cbn zeta in HF, HG.
  split; [|split].
  - apply StronglySorted_merge_sort; apply _.
  - rewrite merge_sort_Permutation. apply HG. constructor.
  - intros n. rewrite merge_sort_Permutation, HF, flat_map_variables. cbn. split.
    + intros [H | H]; [by apply elem_of_nil in H | done].
    + by right.
Qed.

Lemma refresh_variable_names_witness :
  StronglySorted String.le (variableNames sample_registry)
  /\ NoDup (variableNames sample_registry)
  /\ (forall n, n ∈ variableNames sample_registry
                <-> exists t x, t ∈ titles sample_registry /\ x ∈ title_variables t
                                /\ variable x = n).
Proof.
  apply (refresh_variable_names (Some sample_titles) empty_registry Normal sample_registry).
  reflexivity.
Defined.




Lemma setVar_forgotten (args : SetVarArgs) (reg : Registry) (c : Completion)
    (reg' : Registry) :
  forgotten reg -> setVar args reg = Some (c, reg') -> forgotten reg'.
Proof.
  intros [Hd Hv]. unfold setVar.
  destruct (match a_title args with
            | Some ref =>
                if truthy_string (a_name args) && negb (truthy_option (a_varid args))
                then title ← titles reg !! ref;
                     if is_ascii (title_name title) && is_ascii (a_name args)
                     then Some (Some (variableId (title_name title) (a_name args)))
                     else None
                else Some (a_varid args)
            | None => Some (a_varid args)
            end) as [varid|]; [|done].
  cbn [mbind option_bind]. rewrite Hd, lookup_empty.
  destruct (inherited (default "undefined" varid)); [done|].
  cbn [mbind option_bind titles console titlesByName titlesById varData varValues
       variableNames].
  destruct (a_title args) as [ref|].
  - destruct (titles reg !! ref); [|done]. cbn [mbind option_bind].
    intros [= <- <-]. by split.
  - intros [= <- <-]. by split.
Qed.

Lemma setVars_forgotten (ref : nat) (vars : list (string * JValue)) :
  forall (reg : Registry) (c : Completion) (reg' : Registry),
  forgotten reg -> setVars ref vars reg = Some (c, reg') -> forgotten reg'.
Proof.
  induction vars as [|[name v] rest IH]; intros reg c reg' Hf; cbn [setVars].
  { by intros [= <- <-]. }
  destruct (setVar (mkArgs None (Some ref) name v) reg) as [[[|] reg1]|] eqn:Hrun; [| |done].
  - apply IH. by apply (setVar_forgotten _ _ _ _ Hf Hrun).
  - intros [= <- <-]. by apply (setVar_forgotten _ _ _ _ Hf Hrun).
Qed.

Lemma handleNotification_forgotten (msg : option Notification) (reg reg' : Registry) :
  forgotten reg -> handleNotification msg reg = Some reg' -> forgotten reg'.
Proof.
  intros Hf. unfold handleNotification.
  destruct msg as [n|]; [|by intros [= <-]].
  destruct (n_id n) as [id|]; [|by intros [= <-]].
  destruct (n_variables n) as [vars|]; [|by intros [= <-]].
  destruct (String.eqb (n_event n) "data" && truthy id); [|by intros [= <-]].
  destruct (titlesById reg !! toString id) as [ref|].
  - destruct (setVars ref vars reg) as [[c r]|] eqn:Hrun; [|done].
    cbn. intros [= <-]. by apply (setVars_forgotten _ _ _ _ _ Hf Hrun).
  - destruct (inherited (toString id)); [done|]. by intros [= <-].
Qed.

Lemma notifications_forgotten (msgs : list (option Notification)) :
  forall reg reg' : Registry,
  forgotten reg -> notifications msgs reg = Some reg' -> forgotten reg'.
Proof.
  unfold notifications.
  induction msgs as [|msg msgs IH] using rev_ind; intros reg reg' Hf.
  { cbn. by intros [= <-]. }
  rewrite foldl_app. cbn [foldl].
  destruct (foldl (fun r msg => r ≫= handleNotification msg) (Some reg) msgs)
    as [r|] eqn:Hr; [|done].
  cbn [mbind option_bind]. apply handleNotification_forgotten. by apply (IH reg).
Qed.




(** X27: (getCurrentTitles, lines 343-383, with handleNotification and
    setVar) a refresh whose reply does not parse, or is [null], throws
    after it has emptied the variable data and values, and tells Companion
    nothing; the list of variable names stays.  On text that does not parse
    the titles and both indexes stay as well, on [null] the indexes are
    emptied.  From then on no run of notifications makes the module
    remember a value again. *)
Theorem failed_refresh_forgets (reply : Reply) (reg : Registry) :
  match reply with
  | Parsed _ => True
  | Unparsable =>
      exists reg',
        getCurrentTitles reply reg = Some (Thrown, reg')
        /\ console reg' = console reg /\ variableNames reg' = variableNames reg
        /\ titles reg' = titles reg /\ titlesById reg' = titlesById reg
        /\ titlesByName reg' = titlesByName reg
        /\ forgotten reg'
        /\ (forall msgs r, notifications msgs reg' = Some r -> forgotten r)
  | ParsedNull =>
      exists reg',
        getCurrentTitles reply reg = Some (Thrown, reg')
        /\ console reg' = console reg /\ variableNames reg' = variableNames reg
        /\ titlesById reg' = ∅ /\ titlesByName reg' = ∅
        /\ forgotten reg'
        /\ (forall msgs r, notifications msgs reg' = Some r -> forgotten r)
  end.
Proof.
  destruct reply; [| |done]; eexists; (split; [done|]);
    cbn [console variableNames titles titlesById titlesByName];
    repeat (split; [done|]);
    intros msgs r; apply notifications_forgotten; by split.
Qed.

(** X28: (handleNotification, lines 422-434, after getCurrentTitles) once
    a refresh has ended, a notification whose id is the id of no listed
    title (nor a name every object inherits) changes nothing and reaches
    Companion with nothing, whatever its event and variables are. *)
Theorem notification_for_unlisted_title_ignored (tf : option (list Title))
    (reg reg' : Registry) (c : Completion) (n : Notification) (id : JValue) :
  getCurrentTitles (Parsed tf) reg = Some (c, reg') ->
  n_id n = Some id ->
  toString id ∉ map (fun t => toString (title_id t)) (titles reg') ->
  inherited (toString id) = false ->
  handleNotification (Some n) reg' = Some reg'.
Proof.
  intros Hrun Hid Hunlisted Hplain.
  apply getCurrentTitles_result in Hrun as [_ ->]. cbn zeta in *.
  cbn [titles] in Hunlisted.
  destruct (register_titles_spec (rev (default [] tf)) 0 empty_pass)
    as (_ & _ & _ & HD & _).
  destruct (HD (toString id)) as [_ Hout]. specialize (Hout Hunlisted).
  cbn in Hout. rewrite lookup_empty in Hout.
  unfold handleNotification. rewrite Hid. cbn [titlesById].
  destruct (n_variables n); [|done].
  destruct (String.eqb (n_event n) "data" && truthy id); [|done].
  by rewrite Hout, Hplain.
Qed.

Lemma notification_for_unlisted_title_ignored_witness :
  handleNotification
    (Some (mkNotification "data" (Some (JStr "t9")) (Some [("Home", JNum 2)])))
    sample_registry
  = Some sample_registry.
Proof.
  apply (notification_for_unlisted_title_ignored (Some sample_titles) empty_registry
           sample_registry Normal _ (JStr "t9")).
  - reflexivity.
  - reflexivity.
  - vm_compute. intros H.
    repeat (apply elem_of_cons in H as [H | H]; [discriminate H|]).
    by apply elem_of_nil in H.
  - reflexivity.
Defined.





End TitleRegistry.
